(** * ETA accuracy vs. coverage dashboard: the data pipeline of [app.py]

    The dashboard reads two tables (prediction accuracy, tracking coverage),
    left-joins them on (routeID, timePeriod), marks unmatched rows with the
    sentinel [-1], computes a Pearson correlation over the filtered rows and
    shows a few group-by/mean views.

    Cells of numeric columns are IEEE binary64 values, as pandas stores them;
    a missing cell is [nan].  A key column (route, period, Time Bucket) has
    the type its cells were read with, integers or strings, and its cells are
    compared and ordered as Python compares values of that type.  A table is
    the list of its rows, in row order. *)

From Stdlib Require Import List Bool String Ascii ZArith Lia Permutation Sorted.
From Stdlib Require Import Floats.
From Stdlib Require Uint63.

#[local] Set Warnings "-inexact-float".
Import ListNotations.

Local Open Scope string_scope.
Local Open Scope list_scope.

(** ** Key columns *)

(** The cells of a key column: equality as [==] and [isin] test it, and the
    order [sorted] and [groupby] put them in. *)
Class KeyType (K : Type) : Type := {
  key_eqb : K -> K -> bool;
  key_leb : K -> K -> bool;
  key_eqb_eq : forall x y, key_eqb x y = true <-> x = y;
  key_leb_trans : forall x y z,
      key_leb x y = true -> key_leb y z = true -> key_leb x z = true;
  key_leb_total : forall x y, key_leb x y = true \/ key_leb y x = true;
  key_leb_antisym : forall x y,
      key_leb x y = true -> key_leb y x = true -> x = y
}.

Definition key_ltb {K : Type} {KK : KeyType K} (x y : K) : bool :=
  key_leb x y && negb (key_eqb x y).

(** ** Tables *)

(** One row of [accuracy_detailed_literal.csv]; [R], [P] and [B] are the
    types of the cells of [routeID], [timePeriod] and [Time Bucket]. *)
Record AccuracyRecord (R P B : Type) : Type := mkAccuracy {
  routeID : R;
  timePeriod : P;
  Time_Bucket : B;
  accurate_pct : float;
  early_pct : float;
  late_pct : float;
  totalPredictions : Z
}.

Arguments mkAccuracy {R P B} _ _ _ _ _ _ _.
Arguments routeID {R P B} _.
Arguments timePeriod {R P B} _.
Arguments Time_Bucket {R P B} _.
Arguments accurate_pct {R P B} _.
Arguments early_pct {R P B} _.
Arguments late_pct {R P B} _.
Arguments totalPredictions {R P B} _.

(** One row of [coverage_with_bands.csv], with the columns the program reads. *)
Record CoverageRecord (R P : Type) : Type := mkCoverage {
  route : R;
  cov_timePeriod : P;
  cov_fractionTrackedExplained : float;
  cov_fractionOnFullyMissingTrips : float
}.

Arguments mkCoverage {R P} _ _ _ _.
Arguments route {R P} _.
Arguments cov_timePeriod {R P} _.
Arguments cov_fractionTrackedExplained {R P} _.
Arguments cov_fractionOnFullyMissingTrips {R P} _.

(** One row of [df_merged]: the accuracy columns followed by the two columns
    brought by the join. *)
Record MergedRecord (R P B : Type) : Type := mkMerged {
  acc_part : AccuracyRecord R P B;
  fractionTrackedExplained : float;
  fractionOnFullyMissingTrips : float
}.

Arguments mkMerged {R P B} _ _ _.
Arguments acc_part {R P B} _.
Arguments fractionTrackedExplained {R P B} _.
Arguments fractionOnFullyMissingTrips {R P B} _.

Definition m_routeID {R P B : Type} (m : MergedRecord R P B) : R :=
  routeID (acc_part m).
Definition m_timePeriod {R P B : Type} (m : MergedRecord R P B) : P :=
  timePeriod (acc_part m).
Definition m_accurate_pct {R P B : Type} (m : MergedRecord R P B) : float :=
  accurate_pct (acc_part m).

(** ** Missing values *)

Definition sentinel : float := (-1)%float.

(** [Series.fillna(v)]: every missing cell becomes [v]. *)
Definition fillna (v x : float) : float := if is_nan x then v else x.

Definition notna (x : float) : bool := negb (is_nan x).

(** ** load_data: the merge (lines 30-52) *)

Section Merge.
Context {R P B : Type} {KR : KeyType R} {KP : KeyType P}.

(** Equality of the join key, [on=['routeID', 'timePeriod']], the coverage
    column [route] having been renamed to [routeID]. *)
Definition key_match (a : AccuracyRecord R P B) (c : CoverageRecord R P)
  : bool :=
  key_eqb (routeID a) (route c) && key_eqb (timePeriod a) (cov_timePeriod c).

(** The rows one accuracy row gives in a left join: one per matching coverage
    row, in coverage order, or a single row with missing coverage cells. *)
Definition merge_row (cov : list (CoverageRecord R P))
  (a : AccuracyRecord R P B) : list (MergedRecord R P B) :=
  match filter (key_match a) cov with
  | [] => [mkMerged a nan nan]
  | ms => map (fun c => mkMerged a (cov_fractionTrackedExplained c)
                                   (cov_fractionOnFullyMissingTrips c)) ms
  end.

(** [pd.merge(df_accuracy, df_coverage_renamed[...], on=[...], how='left')]. *)
Definition pd_merge_left (acc : list (AccuracyRecord R P B))
  (cov : list (CoverageRecord R P)) : list (MergedRecord R P B) :=
  flat_map (merge_row cov) acc.

(** Line 50: only [fractionTrackedExplained] is filled with the sentinel. *)
Definition fill_sentinel (m : MergedRecord R P B) : MergedRecord R P B :=
  mkMerged (acc_part m)
           (fillna sentinel (fractionTrackedExplained m))
           (fractionOnFullyMissingTrips m).

(** The third component of the value [load_data] returns; the first two are
    the parsed tables themselves. *)
Definition load_data (acc : list (AccuracyRecord R P B))
  (cov : list (CoverageRecord R P))
  : list (AccuracyRecord R P B) * list (CoverageRecord R P)
    * list (MergedRecord R P B) :=
  (acc, cov, map fill_sentinel (pd_merge_left acc cov)).

Definition df_merged_of (acc : list (AccuracyRecord R P B))
  (cov : list (CoverageRecord R P)) : list (MergedRecord R P B) :=
  snd (load_data acc cov).

(** Line 62: rows that carry the sentinel leave the correlation analysis. *)
Definition df_corr_analysis_of (df_merged : list (MergedRecord R P B))
  : list (MergedRecord R P B) :=
  filter (fun m => negb (fractionTrackedExplained m =? sentinel)%float) df_merged.

(** The join key of a coverage row. *)
Definition cov_key (c : CoverageRecord R P) : R * P :=
  (route c, cov_timePeriod c).

Definition acc_key (a : AccuracyRecord R P B) : R * P :=
  (routeID a, timePeriod a).

(** An accuracy row has a coverage match when some coverage row has its key. *)
Definition has_match (cov : list (CoverageRecord R P))
  (a : AccuracyRecord R P B) : bool :=
  existsb (key_match a) cov.

End Merge.

(** ** Filter options (lines 65-82) *)

Section Keys.
Context {K : Type} {KK : KeyType K}.

(** [Series.isin(values)], on one cell. *)
Definition isin (x : K) (values : list K) : bool :=
  existsb (key_eqb x) values.

(** [Series.unique()]: the distinct values, in order of first appearance. *)
Fixpoint unique_from (seen : list K) (l : list K) : list K :=
  match l with
  | [] => []
  | x :: l' =>
      if isin x seen then unique_from seen l'
      else x :: unique_from (x :: seen) l'
  end.

Definition unique (l : list K) : list K := unique_from [] l.

(** The position of a key in a list of keys: the group label of a row. *)
Fixpoint index_of (k : K) (keys : list K) : nat :=
  match keys with
  | [] => 0
  | k' :: keys' => if key_eqb k k' then 0 else S (index_of k keys')
  end.

End Keys.

Section Sorting.
Context {A : Type} (le : A -> A -> bool).

Fixpoint insert_sorted (x : A) (l : list A) : list A :=
  match l with
  | [] => [x]
  | y :: l' => if le x y then x :: l else y :: insert_sorted x l'
  end.

(** A stable ascending sort: an element goes before the first element it is
    below or equal to, scanning from the end of the input. *)
Definition sort_by (l : list A) : list A :=
  fold_right insert_sorted [] l.
End Sorting.

(** Python's [sorted], and the order [groupby] gives its keys. *)
Definition sorted {K : Type} {KK : KeyType K} (l : list K) : list K :=
  sort_by key_leb l.

Section Options.
Context {R P B : Type} {KR : KeyType R} {KP : KeyType P}.

Definition unique_periods_of (df_merged : list (MergedRecord R P B))
  : list P :=
  unique (map m_timePeriod df_merged).

Definition unique_routes_of (df_merged : list (MergedRecord R P B))
  : list R :=
  sorted (unique (map m_routeID df_merged)).

(** Line 81, [default=unique_routes[:10]]. *)
Definition default_routes (unique_routes : list R) : list R :=
  firstn 10 unique_routes.

(** What [st.sidebar.multiselect] can return: values among its options. *)
Definition selectable (options selected : list R) : Prop :=
  incl selected options.

(** ** Filter application (lines 85-98) *)

Definition df_merged_filtered_of (selected_periods : list P)
  (selected_routes : list R) (df_corr_analysis : list (MergedRecord R P B))
  : list (MergedRecord R P B) :=
  filter (fun m => isin (m_timePeriod m) selected_periods
                   && isin (m_routeID m) selected_routes) df_corr_analysis.

Definition df_acc_filtered_of (selected_periods : list P)
  (selected_routes : list R) (df_accuracy : list (AccuracyRecord R P B))
  : list (AccuracyRecord R P B) :=
  filter (fun a => isin (timePeriod a) selected_periods
                   && isin (routeID a) selected_routes) df_accuracy.

Definition df_cov_filtered_of (selected_periods : list P)
  (selected_routes : list R) (df_coverage : list (CoverageRecord R P))
  : list (CoverageRecord R P) :=
  filter (fun c => isin (cov_timePeriod c) selected_periods
                   && isin (route c) selected_routes) df_coverage.

End Options.

(** [DataFrame.empty]. *)
Definition empty {A : Type} (df : list A) : bool :=
  match df with [] => true | _ => false end.

(** ** Pearson correlation (line 120)

    [Series.corr] drops the rows where either cell is missing and hands the
    remaining two columns to the library's routine for Pearson's
    coefficient.  That routine is not code of this program: the wrapper
    around it is written for any routine, and [np_corrcoef] below renders
    the routine with sums running left to right, which fixes its value only
    up to rounding. *)

Local Open Scope float_scope.

Definition float_of_Z (z : Z) : float :=
  match z with
  | Z.neg _ => - of_uint63 (Uint63.of_Z (- z))
  | _ => of_uint63 (Uint63.of_Z z)
  end.

Definition float_of_nat (n : nat) : float := float_of_Z (Z.of_nat n).

Definition fsum (xs : list float) : float := fold_left PrimFloat.add xs 0.

Definition np_average (xs : list float) : float :=
  fsum xs / float_of_nat (List.length xs).

Definition np_dot (xs ys : list float) : float :=
  fsum (map (fun p => fst p * snd p) (combine xs ys)).

(** The entries [0,0], [0,1] and [1,1] of [np.cov(x, y)] with [ddof=1]. *)
Definition np_cov (x y : list float) : float * float * float :=
  let fact0 := (Z.of_nat (List.length x) - 1)%Z in
  let fact := if (fact0 <=? 0)%Z then 0 else float_of_Z fact0 in
  let avg_x := np_average x in
  let avg_y := np_average y in
  let xc := map (fun v => v - avg_x) x in
  let yc := map (fun v => v - avg_y) y in
  let s := 1 / fact in
  (np_dot xc xc * s, np_dot xc yc * s, np_dot yc yc * s).

(** [np.clip(v, lo, hi)]; a missing value stays missing. *)
Definition np_clip (lo hi v : float) : float :=
  if is_nan v then v else if v <? lo then lo else if hi <? v then hi else v.

(** The coefficient in the manner of [np.corrcoef(x, y)[0, 1]]: the
    covariance over the two standard deviations, clipped to [-1, 1]. *)
Definition np_corrcoef (x y : list float) : float :=
  let '(cxx, cxy, cyy) := np_cov x y in
  np_clip (-1) 1 (cxy / PrimFloat.sqrt cxx / PrimFloat.sqrt cyy).

(** Boolean indexing, [a[valid]]. *)
Fixpoint select {A : Type} (mask : list bool) (l : list A) : list A :=
  match mask, l with
  | b :: mask', x :: l' => if b then x :: select mask' l' else select mask' l'
  | _, _ => []
  end.

Section Corr.
(** The library's routine for the coefficient of two complete columns. *)
Variable pearson : list float -> list float -> float.

(** [nanops.nancorr(a, b, method='pearson', min_periods=1)]. *)
Definition nancorr_with (a b : list float) : float :=
  let valid := map (fun p => notna (fst p) && notna (snd p)) (combine a b) in
  let a' := select valid a in
  let b' := select valid b in
  if (List.length a' <? 1)%nat then nan else pearson a' b'.

(** [this.corr(other)] for two columns of one table. *)
Definition Series_corr_with (this other : list float) : float :=
  if (List.length this =? 0)%nat then nan else nancorr_with this other.
End Corr.

Definition nancorr : list float -> list float -> float :=
  nancorr_with np_corrcoef.

Definition Series_corr : list float -> list float -> float :=
  Series_corr_with np_corrcoef.

(** ** Tab 1: the correlation and its band (lines 118-133) *)

Inductive Band :=
| StrongPositive      (* st.success, "Corrélation positive forte" *)
| ModeratePositive    (* st.info, "Corrélation positive modérée" *)
| NegativeUnexpected  (* st.warning, "Corrélation négative" *)
| NoClearCorrelation. (* st.info, "Pas de corrélation claire (ou faible)" *)

Definition correlation_band (correlation : float) : Band :=
  if 0.5 <? correlation then StrongPositive
  else if 0.2 <? correlation then ModeratePositive
  else if correlation <? -0.2 then NegativeUnexpected
  else NoClearCorrelation.

(** What column 1 of tab 1 shows: the metric with its band, or the warning
    "Aucune donnée à afficher avec les filtres actuels." *)
Inductive Tab1Correlation :=
| CorrelationMetric (correlation : float) (band : Band)
| NoDataWarning.

Section Tab1.
Context {R P B : Type}.
Variable pearson : list float -> list float -> float.

Definition correlation_with (df_merged_filtered : list (MergedRecord R P B))
  : float :=
  Series_corr_with pearson
    (map fractionTrackedExplained df_merged_filtered)
    (map m_accurate_pct df_merged_filtered).

Definition tab1_correlation_with
  (df_merged_filtered : list (MergedRecord R P B)) : Tab1Correlation :=
  if negb (empty df_merged_filtered) then
    let correlation := correlation_with df_merged_filtered in
    CorrelationMetric correlation (correlation_band correlation)
  else NoDataWarning.
End Tab1.

Definition correlation_of {R P B : Type}
  (df_merged_filtered : list (MergedRecord R P B)) : float :=
  correlation_with np_corrcoef df_merged_filtered.

Definition tab1_correlation {R P B : Type}
  (df_merged_filtered : list (MergedRecord R P B)) : Tab1Correlation :=
  tab1_correlation_with np_corrcoef df_merged_filtered.

(** ** Aggregation views (lines 174-238) *)

(** What [group_mean] keeps for one group and one column: the number of
    cells seen, their running sum and the compensation of that sum. *)
Record MeanAcc := mkMeanAcc {
  nobs : nat;
  sumx : float;
  compensation : float
}.

Definition mean_zero : MeanAcc := mkMeanAcc 0 0 0.

(** One cell enters its group: a missing cell is skipped, another is added
    to the compensated sum. *)
Definition mean_add (a : MeanAcc) (val : float) : MeanAcc :=
  if is_nan val then a
  else
    let y := val - compensation a in
    let t := sumx a + y in
    let c := t - sumx a - y in
    mkMeanAcc (S (nobs a)) t (if is_nan c then 0 else c).

(** The mean of a group once every row is seen; missing when the group has
    no cell. *)
Definition mean_out (a : MeanAcc) : float :=
  match nobs a with
  | O => nan
  | S _ => sumx a / float_of_nat (nobs a)
  end.

(** [st[i] = f(st[i])]. *)
Fixpoint update_at {A : Type} (i : nat) (f : A -> A) (l : list A) : list A :=
  match l, i with
  | [], _ => []
  | x :: l', O => f x :: l'
  | x :: l', S i' => x :: update_at i' f l'
  end.

(** [group_mean]: one pass over the rows, each cell entering the group its
    label names. *)
Definition group_mean (ngroups : nat) (labels : list nat)
  (values : list float) : list float :=
  map mean_out
      (fold_left (fun st p => update_at (fst p) (fun a => mean_add a (snd p)) st)
                 (combine labels values) (repeat mean_zero ngroups)).

(** The mean of the cells of one group, taken alone. *)
Definition mean (xs : list float) : float :=
  mean_out (fold_left mean_add xs mean_zero).

Section GroupBy.
Context {A K : Type} {KK : KeyType K} (key : A -> K).

(** The rows of one group. *)
Definition group (k : K) (df : list A) : list A :=
  filter (fun r => key_eqb (key r) k) df.

(** The keys of the groups, sorted, and the label of each row. *)
Definition group_keys (df : list A) : list K :=
  sorted (unique (map key df)).

Definition group_labels (df : list A) : list nat :=
  map (fun r => index_of (key r) (group_keys df)) df.

(** [df.groupby(key)[col].mean().reset_index()]: one row per distinct key,
    keys in sorted order. *)
Definition groupby_mean (col : A -> float) (df : list A)
  : list (K * float) :=
  let keys := group_keys df in
  combine keys
          (group_mean (List.length keys) (group_labels df) (map col df)).

Definition groupby_mean3 (c1 c2 c3 : A -> float) (df : list A)
  : list (K * (float * float * float)) :=
  let keys := group_keys df in
  let labels := group_labels df in
  let n := List.length keys in
  combine keys
          (combine (combine (group_mean n labels (map c1 df))
                            (group_mean n labels (map c2 df)))
                   (group_mean n labels (map c3 df))).
End GroupBy.

(** [sort_values(by=..., ascending=False)]: the rows with a missing value go
    last; the others are reversed, sorted ascending and reversed again.  The
    order numpy gives rows of equal value is not fixed; the stable one is
    taken here. *)
Definition sort_values_desc {A : Type} (by_col : A -> float) (df : list A)
  : list A :=
  let non_nans := filter (fun r => notna (by_col r)) df in
  let nans := filter (fun r => is_nan (by_col r)) df in
  rev (sort_by (fun a b => by_col a <=? by_col b) (rev non_nans)) ++ nans.

Section Views.
Context {R P B : Type} {KR : KeyType R} {KP : KeyType P} {KB : KeyType B}.

(** Line 177. *)
Definition df_grouped_of (df_acc_filtered : list (AccuracyRecord R P B))
  : list (B * (float * float * float)) :=
  groupby_mean3 Time_Bucket accurate_pct early_pct late_pct df_acc_filtered.

(** Line 191. *)
Definition df_grouped_route_of (df_acc_filtered : list (AccuracyRecord R P B))
  : list (R * float) :=
  sort_values_desc snd (groupby_mean routeID accurate_pct df_acc_filtered).

(** Line 214. *)
Definition df_grouped_period_of (df_cov_filtered : list (CoverageRecord R P))
  : list (P * float) :=
  groupby_mean cov_timePeriod cov_fractionTrackedExplained df_cov_filtered.

(** Line 227. *)
Definition df_grouped_route_cov_of
  (df_cov_filtered : list (CoverageRecord R P)) : list (R * float) :=
  sort_values_desc snd
    (groupby_mean route cov_fractionTrackedExplained df_cov_filtered).

End Views.

(** Tab 2: two bar charts, or the message "Aucune donnée de précision à
    afficher avec les filtres sélectionnés." *)
Inductive Tab2 (R B : Type) : Type :=
| AccuracyCharts (df_grouped : list (B * (float * float * float)))
                 (df_grouped_route : list (R * float))
| NoAccuracyData.

Arguments AccuracyCharts {R B} _ _.
Arguments NoAccuracyData {R B}.

(** Tab 3: two bar charts, or the message "Aucune donnée de couverture à
    afficher avec les filtres sélectionnés." *)
Inductive Tab3 (R P : Type) : Type :=
| CoverageCharts (df_grouped_period : list (P * float))
                 (df_grouped_route_cov : list (R * float))
| NoCoverageData.

Arguments CoverageCharts {R P} _ _.
Arguments NoCoverageData {R P}.

(** ** One run of the script *)

(** The tables of one run, for the two uploaded tables and the two
    selections of the sidebar. *)
Record Run (R P B : Type) : Type := mkRun {
  df_accuracy : list (AccuracyRecord R P B);
  df_coverage : list (CoverageRecord R P);
  df_merged : list (MergedRecord R P B);
  df_corr_analysis : list (MergedRecord R P B);
  unique_periods : list P;
  unique_routes : list R;
  df_merged_filtered : list (MergedRecord R P B);
  df_acc_filtered : list (AccuracyRecord R P B);
  df_cov_filtered : list (CoverageRecord R P);
  (** Line 247, [st.dataframe(df_merged_filtered)]: the merged table that
      tab 4 displays. *)
  tab4_merged_display : list (MergedRecord R P B)
}.

Arguments mkRun {R P B} _ _ _ _ _ _ _ _ _ _.
Arguments df_accuracy {R P B} _.
Arguments df_coverage {R P B} _.
Arguments df_merged {R P B} _.
Arguments df_corr_analysis {R P B} _.
Arguments unique_periods {R P B} _.
Arguments unique_routes {R P B} _.
Arguments df_merged_filtered {R P B} _.
Arguments df_acc_filtered {R P B} _.
Arguments df_cov_filtered {R P B} _.
Arguments tab4_merged_display {R P B} _.

Section Script.
Context {R P B : Type} {KR : KeyType R} {KP : KeyType P} {KB : KeyType B}.

Definition tab2 (df_acc_filtered : list (AccuracyRecord R P B)) : Tab2 R B :=
  if negb (empty df_acc_filtered) then
    AccuracyCharts (df_grouped_of df_acc_filtered)
                   (df_grouped_route_of df_acc_filtered)
  else NoAccuracyData.

Definition tab3 (df_cov_filtered : list (CoverageRecord R P)) : Tab3 R P :=
  if negb (empty df_cov_filtered) then
    CoverageCharts (df_grouped_period_of df_cov_filtered)
                   (df_grouped_route_cov_of df_cov_filtered)
  else NoCoverageData.

Definition run (acc : list (AccuracyRecord R P B))
  (cov : list (CoverageRecord R P))
  (selected_periods : list P) (selected_routes : list R) : Run R P B :=
  let '(df_accuracy, df_coverage, df_merged) := load_data acc cov in
  let df_corr_analysis := df_corr_analysis_of df_merged in
  let df_merged_filtered :=
    df_merged_filtered_of selected_periods selected_routes df_corr_analysis in
  mkRun df_accuracy df_coverage df_merged df_corr_analysis
        (unique_periods_of df_merged) (unique_routes_of df_merged)
        df_merged_filtered
        (df_acc_filtered_of selected_periods selected_routes df_accuracy)
        (df_cov_filtered_of selected_periods selected_routes df_coverage)
        df_merged_filtered.

(** ** The rows of the correlation, in the words of the specification *)


(** The rows where neither of the two fields is missing. *)
Definition pairwise_complete (rows : list (MergedRecord R P B))
  : list (MergedRecord R P B) :=
  filter (fun m => notna (fractionTrackedExplained m)
                   && notna (m_accurate_pct m)) rows.

End Script.

Local Close Scope float_scope.

(** ** The order of binary64 values

    The comparisons [<?], [<=?] and [=?] of the program are those of IEEE 754:
    any comparison with [nan] is false.  On the other values they are the
    lexicographic order of a triple of integers read off the representation. *)

Module FloatOrder.

Local Open Scope Z_scope.

Definition sf_key (x : spec_float) : Z * Z * Z :=
  match x with
  | S754_zero _ => (0, 0, 0)
  | S754_infinity s => if s then (-2, 0, 0) else (2, 0, 0)
  | S754_nan => (0, 0, 0)
  | S754_finite s m e => if s then (-1, - e, - Z.pos m) else (1, e, Z.pos m)
  end.

Definition lex3 (a b : Z * Z * Z) : comparison :=
  let '(a1, a2, a3) := a in
  let '(b1, b2, b3) := b in
  match a1 ?= b1 with
  | Eq => match a2 ?= b2 with Eq => a3 ?= b3 | c => c end
  | c => c
  end.

Definition lex_lt (a b : Z * Z * Z) : Prop :=
  let '(a1, a2, a3) := a in
  let '(b1, b2, b3) := b in
  a1 < b1 \/ (a1 = b1 /\ (a2 < b2 \/ (a2 = b2 /\ a3 < b3))).

Definition lex_le (a b : Z * Z * Z) : Prop :=
  let '(a1, a2, a3) := a in
  let '(b1, b2, b3) := b in
  a1 < b1 \/ (a1 = b1 /\ (a2 < b2 \/ (a2 = b2 /\ a3 <= b3))).

Definition fkey (x : float) : Z * Z * Z := sf_key (Prim2SF x).

Definition sf_is_nan (x : spec_float) : bool :=
  match x with S754_nan => true | _ => false end.

Lemma lex3_lt a b : lex3 a b = Lt <-> lex_lt a b.
Proof.
  destruct a as [[a1 a2] a3], b as [[b1 b2] b3]; simpl.
  destruct (Z.compare_spec a1 b1), (Z.compare_spec a2 b2),
    (Z.compare_spec a3 b3); split; intros H'; try discriminate; try lia;
    reflexivity.
Qed.

Lemma lex3_le a b : (lex3 a b = Lt \/ lex3 a b = Eq) <-> lex_le a b.
Proof.
  destruct a as [[a1 a2] a3], b as [[b1 b2] b3]; simpl.
  destruct (Z.compare_spec a1 b1), (Z.compare_spec a2 b2),
    (Z.compare_spec a3 b3); split; intros H';
    try (destruct H'; discriminate); try lia; auto.
Qed.

Lemma SFcompare_key x y :
  sf_is_nan x = false -> sf_is_nan y = false ->
  SFcompare x y = Some (lex3 (sf_key x) (sf_key y)).
Proof.
  destruct x as [sx|sx| |sx mx ex], y as [sy|sy| |sy my ey]; simpl;
    try discriminate; intros _ _;
    try (destruct sx; reflexivity); try (destruct sy; reflexivity);
    try (destruct sx, sy; reflexivity).
  destruct sx, sy; try reflexivity; try (destruct (ex ?= ey); reflexivity).
  unfold lex3.
  change (-1 ?= -1) with Eq. cbv iota.
  rewrite Z.compare_opp, (Z.compare_antisym ex ey).
  destruct (ex ?= ey); reflexivity.
Qed.

Lemma SFcompare_nan x y :
  sf_is_nan x = true \/ sf_is_nan y = true -> SFcompare x y = None.
Proof.
  destruct x, y; simpl; intros [H|H]; try discriminate; reflexivity.
Qed.

Lemma lex3_refl a : lex3 a a = Eq.
Proof.
  destruct a as [[a1 a2] a3]; simpl. now rewrite !Z.compare_refl.
Qed.

Lemma is_nan_spec x : is_nan x = sf_is_nan (Prim2SF x).
Proof.
  unfold is_nan. rewrite eqb_spec. unfold SFeqb.
  destruct (sf_is_nan (Prim2SF x)) eqn:E.
  - rewrite SFcompare_nan by auto. reflexivity.
  - rewrite SFcompare_key by assumption. now rewrite lex3_refl.
Qed.

Lemma ltb_iff x y :
  (x <? y)%float = true <->
  is_nan x = false /\ is_nan y = false /\ lex_lt (fkey x) (fkey y).
Proof.
  rewrite ltb_spec, !is_nan_spec. unfold SFltb, fkey.
  destruct (sf_is_nan (Prim2SF x)) eqn:Ex.
  { rewrite SFcompare_nan by auto. split; [discriminate|intros [? _]; discriminate]. }
  destruct (sf_is_nan (Prim2SF y)) eqn:Ey.
  { rewrite SFcompare_nan by auto.
    split; [discriminate|intros [_ [? _]]; discriminate]. }
  rewrite SFcompare_key by assumption. rewrite <- lex3_lt.
  destruct (lex3 _ _); split; intros H; try discriminate; auto;
    destruct H as [_ [_ H]]; discriminate.
Qed.

Lemma leb_iff x y :
  (x <=? y)%float = true <->
  is_nan x = false /\ is_nan y = false /\ lex_le (fkey x) (fkey y).
Proof.
  rewrite leb_spec, !is_nan_spec. unfold SFleb, fkey.
  destruct (sf_is_nan (Prim2SF x)) eqn:Ex.
  { rewrite SFcompare_nan by auto. split; [discriminate|intros [? _]; discriminate]. }
  destruct (sf_is_nan (Prim2SF y)) eqn:Ey.
  { rewrite SFcompare_nan by auto.
    split; [discriminate|intros [_ [? _]]; discriminate]. }
  rewrite SFcompare_key by assumption. rewrite <- lex3_le.
  destruct (lex3 _ _); split; intros H; try discriminate; auto;
    destruct H as [_ [_ [H|H]]]; discriminate.
Qed.

Lemma ltb_false_iff x y :
  is_nan x = false -> is_nan y = false ->
  ((x <? y)%float = false <-> lex_le (fkey y) (fkey x)).
Proof.
  intros Hx Hy. destruct (x <? y)%float eqn:E.
  - apply ltb_iff in E. destruct E as [_ [_ E]].
    split; [discriminate|]. intros H. exfalso.
    destruct (fkey x) as [[a1 a2] a3], (fkey y) as [[b1 b2] b3].
    simpl in *. lia.
  - split; [intros _|reflexivity].
    assert (N : ~ lex_lt (fkey x) (fkey y)).
    { intros H. assert (T : (x <? y)%float = true) by (apply ltb_iff; auto).
      congruence. }
    destruct (fkey x) as [[a1 a2] a3], (fkey y) as [[b1 b2] b3].
    simpl in *. lia.
Qed.

End FloatOrder.

Lemma leb_trans x y z :
  (x <=? y)%float = true -> (y <=? z)%float = true -> (x <=? z)%float = true.
Proof.
  rewrite !FloatOrder.leb_iff. intros [Hx [Hy H1]] [_ [Hz H2]].
  repeat split; try assumption.
  destruct (FloatOrder.fkey x) as [[a1 a2] a3],
    (FloatOrder.fkey y) as [[b1 b2] b3], (FloatOrder.fkey z) as [[c1 c2] c3].
  simpl in *. lia.
Qed.

Lemma leb_total x y :
  is_nan x = false -> is_nan y = false ->
  (x <=? y)%float = true \/ (y <=? x)%float = true.
Proof.
  intros Hx Hy. rewrite !FloatOrder.leb_iff.
  destruct (FloatOrder.fkey x) as [[a1 a2] a3] eqn:Ex,
    (FloatOrder.fkey y) as [[b1 b2] b3] eqn:Ey.
  assert (H : FloatOrder.lex_le (a1, a2, a3) (b1, b2, b3) \/
              FloatOrder.lex_le (b1, b2, b3) (a1, a2, a3))
    by (simpl; lia).
  destruct H; [left|right]; auto.
Qed.

(** ** The two types of key cells *)

Lemma string_compare_not_gt_trans s1 s2 s3 :
  String.compare s1 s2 <> Gt -> String.compare s2 s3 <> Gt ->
  String.compare s1 s3 <> Gt.
Proof.
  revert s2 s3. induction s1 as [|a s1 IH]; intros [|b s2] [|c s3]; simpl;
    try congruence.
  unfold Ascii.compare.
  destruct (N.compare_spec (N_of_ascii a) (N_of_ascii b)) as [E1|E1|E1],
    (N.compare_spec (N_of_ascii b) (N_of_ascii c)) as [E2|E2|E2],
    (N.compare_spec (N_of_ascii a) (N_of_ascii c)) as [E3|E3|E3];
    try congruence; try lia; try apply IH.
Qed.

Lemma string_leb_trans s1 s2 s3 :
  String.leb s1 s2 = true -> String.leb s2 s3 = true ->
  String.leb s1 s3 = true.
Proof.
  unfold String.leb. intros H1 H2.
  pose proof (string_compare_not_gt_trans s1 s2 s3) as H.
  destruct (String.compare s1 s2), (String.compare s2 s3),
    (String.compare s1 s3); try discriminate; try reflexivity;
    exfalso; apply H; congruence.
Qed.

Lemma Z_leb_trans (x y z : Z) :
  (x <=? y)%Z = true -> (y <=? z)%Z = true -> (x <=? z)%Z = true.
Proof. rewrite !Z.leb_le. lia. Qed.

Lemma Z_leb_total (x y : Z) : (x <=? y)%Z = true \/ (y <=? x)%Z = true.
Proof. rewrite !Z.leb_le. lia. Qed.

Lemma Z_leb_antisym (x y : Z) :
  (x <=? y)%Z = true -> (y <=? x)%Z = true -> x = y.
Proof. rewrite !Z.leb_le. lia. Qed.

(** A column of text: cells are equal as strings and ordered as Python
    orders [str], character by character. *)
#[export] Instance string_key : KeyType string := {|
  key_eqb := String.eqb;
  key_leb := String.leb;
  key_eqb_eq := String.eqb_eq;
  key_leb_trans := string_leb_trans;
  key_leb_total := String.leb_total;
  key_leb_antisym := String.leb_antisym
|}.

(** A column of integers, which is what [read_csv] makes of identifiers
    such as 10 or 20: cells are equal and ordered as numbers. *)
#[export] Instance int_key : KeyType Z := {|
  key_eqb := Z.eqb;
  key_leb := Z.leb;
  key_eqb_eq := Z.eqb_eq;
  key_leb_trans := Z_leb_trans;
  key_leb_total := Z_leb_total;
  key_leb_antisym := Z_leb_antisym
|}.

(** ** Sample tables *)

Local Open Scope float_scope.

Definition acc_10_AM_0_5 : AccuracyRecord Z string string :=
  mkAccuracy 10%Z "AM" "0-5" 0.8 0.1 0.1 100.
Definition acc_10_AM_5_10 : AccuracyRecord Z string string :=
  mkAccuracy 10%Z "AM" "5-10" 0.7 0.1 0.2 50.
Definition acc_20_PM : AccuracyRecord Z string string :=
  mkAccuracy 20%Z "PM" "0-5" 0.5 0.1 0.4 10.
Definition acc_30_PM : AccuracyRecord Z string string :=
  mkAccuracy 30%Z "PM" "0-5" 0.9 0.1 0 10.

Definition sample_accuracy : list (AccuracyRecord Z string string) :=
  [acc_10_AM_0_5; acc_10_AM_5_10; acc_20_PM; acc_30_PM].

Definition sample_coverage : list (CoverageRecord Z string) :=
  [mkCoverage 10%Z "AM" 0.9 0.1; mkCoverage 20%Z "PM" 0.4 0.2;
   mkCoverage 99%Z "PM" 0.6 0.3].

(** Four accuracy rows over three routes, with means A: 0.7, B: 0.9, C: 0.5. *)
Definition routes_A_B_C : list (AccuracyRecord string string string) :=
  [mkAccuracy "A" "AM" "0-5" 0.6 0.2 0.2 40;
   mkAccuracy "B" "AM" "0-5" 0.9 0.05 0.05 40;
   mkAccuracy "C" "PM" "0-5" 0.5 0.25 0.25 40;
   mkAccuracy "A" "PM" "0-5" 0.8 0.1 0.1 40].

(** Route A with the cells 0.1, 0.2, 0.3 and route B with the cell 0.2. *)
Definition routes_near_tie : list (AccuracyRecord string string string) :=
  [mkAccuracy "A" "AM" "0-5" 0.1 0.2 0.2 40;
   mkAccuracy "A" "AM" "5-10" 0.2 0.2 0.2 40;
   mkAccuracy "A" "PM" "0-5" 0.3 0.2 0.2 40;
   mkAccuracy "B" "AM" "0-5" 0.2 0.2 0.2 40].



Local Close Scope float_scope.

(** * Properties *)

(** ** Lists *)

Lemma filter_nil_iff {A : Type} (f : A -> bool) (l : list A) :
  filter f l = [] <-> forall x, In x l -> f x = false.
Proof.
  induction l as [|y l IH]; simpl.
  - split; [intros _ x []|reflexivity].
  - destruct (f y) eqn:E.
    + split; [discriminate|]. intros H. specialize (H y (or_introl eq_refl)).
      congruence.
    + rewrite IH. split.
      * intros H x [<-|Hx]; auto.
      * intros H x Hx. apply H. now right.
Qed.

Lemma filter_all {A : Type} (f : A -> bool) (l : list A) :
  (forall x, In x l -> f x = true) -> filter f l = l.
Proof.
  induction l as [|y l IH]; simpl; intros H; [reflexivity|].
  rewrite (H y (or_introl eq_refl)). f_equal. apply IH.
  intros x Hx. apply H. now right.
Qed.

Lemma filter_id_all {A : Type} (f : A -> bool) (l : list A) :
  filter f l = l -> forall x, In x l -> f x = true.
Proof.
  intros E x Hx. rewrite <- E in Hx. now apply filter_In in Hx.
Qed.

Lemma filter_filter {A : Type} (f g : A -> bool) (l : list A) :
  filter f (filter g l) = filter (fun x => g x && f x) l.
Proof.
  induction l as [|y l IH]; simpl; [reflexivity|].
  destruct (g y); simpl; [destruct (f y)|]; now rewrite IH.
Qed.

Lemma filter_length_le {A : Type} (f : A -> bool) l :
  (List.length (filter f l) <= List.length l)%nat.
Proof.
  induction l as [|x l IH]; simpl; [lia|]. destruct (f x); simpl; lia.
Qed.

Lemma flat_map_ext_on {A B : Type} (f g : A -> list B) (l : list A) :
  (forall x, In x l -> f x = g x) -> flat_map f l = flat_map g l.
Proof.
  induction l as [|x l IH]; simpl; intros H; [reflexivity|].
  rewrite (H x (or_introl eq_refl)), IH; [reflexivity|].
  intros y Hy. apply H. now right.
Qed.

(** ** Key cells *)

Section KeyFacts.
Context {K : Type} {KK : KeyType K}.

Lemma key_eqb_refl (x : K) : key_eqb x x = true.
Proof. now apply key_eqb_eq. Qed.

Lemma key_eqb_neq (x y : K) : key_eqb x y = false <-> x <> y.
Proof.
  rewrite <- key_eqb_eq. destruct (key_eqb x y); split; intros H;
    try discriminate; try reflexivity.
  now exfalso.
Qed.

Lemma key_dec (x y : K) : x = y \/ x <> y.
Proof.
  destruct (key_eqb x y) eqn:E; [left; now apply key_eqb_eq|right].
  now apply key_eqb_neq.
Qed.

Lemma isin_In (x : K) (values : list K) :
  isin x values = true <-> In x values.
Proof.
  unfold isin. rewrite existsb_exists. split.
  - intros [y [Hy E]]. apply key_eqb_eq in E. now subst.
  - intros H. exists x. split; [assumption|apply key_eqb_refl].
Qed.

Lemma isin_false (x : K) (values : list K) :
  isin x values = false <-> ~ In x values.
Proof.
  rewrite <- isin_In. destruct (isin x values); split; intros H;
    try discriminate; try reflexivity.
  now exfalso.
Qed.

Lemma isin_same_members (x : K) l l' :
  (forall y, In y l <-> In y l') -> isin x l = isin x l'.
Proof.
  intros H. destruct (isin x l') eqn:E.
  - apply isin_In. apply H. now apply isin_In.
  - apply isin_false. intros Hx. apply isin_false in E. apply E.
    now apply H.
Qed.

End KeyFacts.

(** ** The merge *)

Section MergeFacts.
Context {R P B : Type} {KR : KeyType R} {KP : KeyType P}.
Implicit Types (a : AccuracyRecord R P B) (c : CoverageRecord R P)
  (m : MergedRecord R P B) (acc : list (AccuracyRecord R P B))
  (cov : list (CoverageRecord R P)).

Lemma key_match_eq a c : key_match a c = true <-> acc_key a = cov_key c.
Proof.
  unfold key_match, acc_key, cov_key. rewrite andb_true_iff, !key_eqb_eq.
  split; [intros [-> ->]; reflexivity|intros E; inversion E; auto].
Qed.

(** With unique coverage keys an accuracy row matches at most one row. *)
Lemma unique_keys_one_match a cov :
  NoDup (map cov_key cov) -> (List.length (filter (key_match a) cov) <= 1)%nat.
Proof.
  induction cov as [|c cov IH]; simpl; intros ND; [lia|].
  inversion ND as [|k ks Hnot ND']; subst.
  destruct (key_match a c) eqn:E; [|now apply IH].
  assert (Hnil : filter (key_match a) cov = []).
  { apply filter_nil_iff. intros c' Hc'.
    destruct (key_match a c') eqn:E'; [|reflexivity].
    exfalso. apply Hnot. apply key_match_eq in E, E'. rewrite <- E, E'.
    now apply in_map. }
  rewrite Hnil. simpl. lia.
Qed.

Lemma unique_keys_single_match a c cov :
  NoDup (map cov_key cov) -> In c cov -> key_match a c = true ->
  filter (key_match a) cov = [c].
Proof.
  induction cov as [|c0 cov IH]; simpl; intros ND Hc E; [contradiction|].
  inversion ND as [|k ks Hnot ND']; subst.
  destruct Hc as [->|Hc].
  - rewrite E. f_equal. apply filter_nil_iff. intros c' Hc'.
    destruct (key_match a c') eqn:E'; [|reflexivity].
    exfalso. apply Hnot. apply key_match_eq in E, E'. rewrite <- E, E'.
    now apply in_map.
  - destruct (key_match a c0) eqn:E0; [|now apply IH].
    exfalso. apply Hnot. apply key_match_eq in E, E0. rewrite <- E0, E.
    now apply in_map.
Qed.

Lemma merge_row_acc_part cov a :
  (List.length (filter (key_match a) cov) <= 1)%nat ->
  map acc_part (merge_row cov a) = [a].
Proof.
  unfold merge_row. destruct (filter (key_match a) cov) as [|c [|c' ms]];
    simpl; intros H; try reflexivity. lia.
Qed.

Lemma merge_row_unmatched cov a :
  has_match cov a = false -> merge_row cov a = [mkMerged a nan nan].
Proof.
  unfold has_match, merge_row. intros H.
  assert (E : filter (key_match a) cov = []).
  { apply filter_nil_iff. intros c Hc.
    destruct (key_match a c) eqn:E; [|reflexivity].
    assert (T : existsb (key_match a) cov = true)
      by (apply existsb_exists; eauto).
    congruence. }
  now rewrite E.
Qed.

Lemma merge_row_acc cov a m : In m (merge_row cov a) -> acc_part m = a.
Proof.
  unfold merge_row. destruct (filter (key_match a) cov) as [|c ms].
  - intros [<-|[]]. reflexivity.
  - intros H. apply in_map_iff in H. destruct H as [c' [<- _]]. reflexivity.
Qed.

Lemma merge_row_length cov a :
  List.length (merge_row cov a) =
  Nat.max 1 (List.length (filter (key_match a) cov)).
Proof.
  unfold merge_row. destruct (filter (key_match a) cov) as [|c ms];
    [reflexivity|]. now rewrite length_map.
Qed.

Lemma merge_row_nonempty cov a : exists m, In m (merge_row cov a).
Proof.
  unfold merge_row. destruct (filter (key_match a) cov) as [|c ms];
    simpl; eauto.
Qed.

Lemma in_df_merged acc cov m :
  In m (df_merged_of acc cov) <->
  exists a m0, In a acc /\ In m0 (merge_row cov a) /\ m = fill_sentinel m0.
Proof.
  unfold df_merged_of, load_data, pd_merge_left. simpl.
  rewrite in_map_iff. split.
  - intros [m0 [<- H]]. apply in_flat_map in H. destruct H as [a [Ha Hm]].
    eauto.
  - intros [a [m0 [Ha [Hm ->]]]]. exists m0. split; [reflexivity|].
    apply in_flat_map. eauto.
Qed.

Lemma df_merged_routes acc cov :
  forall x, In x (map m_routeID (df_merged_of acc cov)) <->
            In x (map routeID acc).
Proof.
  intros x. rewrite !in_map_iff. split.
  - intros [m [<- Hm]]. apply in_df_merged in Hm.
    destruct Hm as [a [m0 [Ha [Hm ->]]]]. apply merge_row_acc in Hm.
    exists a. unfold m_routeID. simpl. now rewrite Hm.
  - intros [a [<- Ha]].
    destruct (merge_row_nonempty cov a) as [m0 Hm0].
    exists (fill_sentinel m0). split.
    + unfold m_routeID. simpl. now rewrite (merge_row_acc _ _ _ Hm0).
    + apply in_df_merged. eauto.
Qed.

Lemma df_merged_periods acc cov :
  forall x, In x (map m_timePeriod (df_merged_of acc cov)) <->
            In x (map timePeriod acc).
Proof.
  intros x. rewrite !in_map_iff. split.
  - intros [m [<- Hm]]. apply in_df_merged in Hm.
    destruct Hm as [a [m0 [Ha [Hm ->]]]]. apply merge_row_acc in Hm.
    exists a. unfold m_timePeriod. simpl. now rewrite Hm.
  - intros [a [<- Ha]].
    destruct (merge_row_nonempty cov a) as [m0 Hm0].
    exists (fill_sentinel m0). split.
    + unfold m_timePeriod. simpl. now rewrite (merge_row_acc _ _ _ Hm0).
    + apply in_df_merged. eauto.
Qed.

Lemma df_merged_length acc cov :
  List.length (df_merged_of acc cov) =
  list_sum (map (fun a => Nat.max 1 (List.length (filter (key_match a) cov)))
                acc).
Proof.
  unfold df_merged_of, load_data, pd_merge_left. simpl.
  rewrite length_map. induction acc as [|a acc IH]; simpl; [reflexivity|].
  rewrite length_app, IH, merge_row_length. reflexivity.
Qed.

Lemma merged_accuracy_columns acc cov :
  NoDup (map cov_key cov) -> map acc_part (df_merged_of acc cov) = acc.
Proof.
  intros ND. unfold df_merged_of, load_data, pd_merge_left. simpl.
  rewrite map_map. simpl. induction acc as [|a acc IH]; simpl; [reflexivity|].
  rewrite map_app, IH, merge_row_acc_part; [reflexivity|].
  now apply unique_keys_one_match.
Qed.

(** C1: when the coverage table has no two rows with the same
    (route, timePeriod), the merged table of [load_data] has exactly as many
    rows as the accuracy table; its accuracy columns are the accuracy table
    itself, row for row, so no accuracy row is dropped or duplicated. *)
Theorem merge_preserves_row_count acc cov :
  NoDup (map cov_key cov) ->
  List.length (df_merged_of acc cov) = List.length acc /\
  map acc_part (df_merged_of acc cov) = acc.
Proof.
  intros ND.
  pose proof (merged_accuracy_columns acc cov ND) as E.
  split; [|exact E].
  rewrite <- E at 2. now rewrite length_map.
Qed.

(** The merged rows of an accuracy row without coverage match. *)
Lemma unmatched_rows acc cov a :
  In a acc -> has_match cov a = false ->
  In (mkMerged a (-1) nan) (df_merged_of acc cov) /\
  forall m, In m (df_merged_of acc cov) -> acc_part m = a ->
            m = mkMerged a (-1) nan.
Proof.
  intros Ha Hno. split.
  - apply in_df_merged. exists a, (mkMerged a nan nan).
    rewrite merge_row_unmatched by assumption. simpl. auto.
  - intros m Hm Hacc. apply in_df_merged in Hm.
    destruct Hm as [a' [m0 [Ha' [Hm0 ->]]]]. simpl in Hacc.
    rewrite (merge_row_acc _ _ _ Hm0) in Hacc. subst a'.
    rewrite merge_row_unmatched in Hm0 by assumption.
    destruct Hm0 as [<-|[]]. reflexivity.
Qed.

(** C6: an accuracy row with no coverage row of its key gives the merged row
    with [fractionTrackedExplained] equal to [-1] and
    [fractionOnFullyMissingTrips] missing, and every merged row that comes
    from it is that row. *)
Theorem unmatched_row_sentinel_asymmetry acc cov a :
  In a acc -> has_match cov a = false ->
  In (mkMerged a (-1) nan) (df_merged_of acc cov) /\
  forall m, In m (df_merged_of acc cov) -> acc_part m = a ->
            fractionTrackedExplained m = (-1)%float /\
            fractionOnFullyMissingTrips m = nan /\
            is_nan (fractionOnFullyMissingTrips m) = true.
Proof.
  intros Ha Hno. destruct (unmatched_rows acc cov a Ha Hno) as [Hin Hall].
  split; [exact Hin|]. intros m Hm Hacc.
  rewrite (Hall m Hm Hacc). simpl. auto.
Qed.

(** X1: whatever the coverage table, the merged table has, for each accuracy
    row, as many rows as the coverage rows of its key, and one when there is
    none; so it never has fewer rows than the accuracy table, and its
    accuracy columns hold the accuracy rows and no other. *)
Theorem left_join_row_count acc cov :
  List.length (df_merged_of acc cov) =
    list_sum (map (fun a => Nat.max 1 (List.length (filter (key_match a) cov)))
                  acc) /\
  (List.length acc <= List.length (df_merged_of acc cov))%nat /\
  (forall a, In a (map acc_part (df_merged_of acc cov)) <-> In a acc).
Proof.
  split; [apply df_merged_length|]. split.
  - rewrite df_merged_length. induction acc as [|a acc IH]; [simpl; lia|].
    cbn [map List.length]. change (list_sum (?x :: ?l)) with (x + list_sum l)%nat.
    pose proof (Nat.le_max_l 1 (List.length (filter (key_match a) cov))).
    lia.
  - intros a. rewrite in_map_iff. split.
    + intros [m [<- Hm]]. apply in_df_merged in Hm.
      destruct Hm as [a' [m0 [Ha' [Hm0 ->]]]]. simpl.
      now rewrite (merge_row_acc _ _ _ Hm0).
    + intros Ha. destruct (merge_row_nonempty cov a) as [m0 Hm0].
      exists (fill_sentinel m0). split.
      * simpl. now apply merge_row_acc in Hm0.
      * apply in_df_merged. eauto.
Qed.

Lemma filter_key_match_restrict (p : CoverageRecord R P -> bool) cov a :
  (forall c, In c cov -> key_match a c = true -> p c = true) ->
  filter (key_match a) (filter p cov) = filter (key_match a) cov.
Proof.
  intros H. rewrite filter_filter. apply filter_ext_in. intros c Hc.
  destruct (key_match a c) eqn:E.
  - now rewrite (H c Hc E).
  - apply andb_false_r.
Qed.

(** X2: the coverage rows whose key no accuracy row has play no part in the
    merge: removing them from the coverage table gives the same merged
    table. *)
Theorem coverage_without_accuracy_is_ignored acc cov :
  df_merged_of acc
    (filter (fun c => existsb (fun a => key_match a c) acc) cov) =
  df_merged_of acc cov.
Proof.
  unfold df_merged_of, load_data, pd_merge_left. simpl. f_equal.
  apply flat_map_ext_on. intros a Ha. unfold merge_row.
  rewrite filter_key_match_restrict; [reflexivity|].
  intros c Hc E. apply existsb_exists. eauto.
Qed.

(** X3: with unique coverage keys, an accuracy row whose key a coverage row
    has gives exactly one merged row: the accuracy row with the two fractions
    of that coverage row, [fractionTrackedExplained] being [-1] when the
    coverage cell is missing. *)
Theorem matched_row_carries_coverage acc cov a c :
  NoDup (map cov_key cov) -> In a acc -> In c cov -> key_match a c = true ->
  let row := mkMerged a (fillna (-1) (cov_fractionTrackedExplained c))
                        (cov_fractionOnFullyMissingTrips c) in
  In row (df_merged_of acc cov) /\
  forall m, In m (df_merged_of acc cov) -> acc_part m = a -> m = row.
Proof.
  intros ND Ha Hc E row.
  assert (Rw : merge_row cov a =
              [mkMerged a (cov_fractionTrackedExplained c)
                          (cov_fractionOnFullyMissingTrips c)]).
  { unfold merge_row. now rewrite (unique_keys_single_match a c cov). }
  split.
  - apply in_df_merged. eexists a, _. split; [exact Ha|].
    split; [rewrite Rw; left; reflexivity|reflexivity].
  - intros m Hm Hacc. apply in_df_merged in Hm.
    destruct Hm as [a' [m0 [Ha' [Hm0 ->]]]]. simpl in Hacc.
    rewrite (merge_row_acc _ _ _ Hm0) in Hacc. subst a'.
    rewrite Rw in Hm0. destruct Hm0 as [<-|[]]. reflexivity.
Qed.

End MergeFacts.

Lemma sample_coverage_keys_unique : NoDup (map cov_key sample_coverage).
Proof.
  repeat constructor; simpl; intuition discriminate.
Qed.

Lemma merge_preserves_row_count_witness :
  NoDup (map cov_key sample_coverage) /\
  List.length (df_merged_of sample_accuracy sample_coverage) = 4%nat /\
  map acc_part (df_merged_of sample_accuracy sample_coverage) = sample_accuracy.
Proof.
  split; [exact sample_coverage_keys_unique|].
  exact (merge_preserves_row_count sample_accuracy sample_coverage
           sample_coverage_keys_unique).
Defined.

(** Two coverage rows with one key give two merged rows for one accuracy
    row: the hypothesis of unique keys is needed. *)
Example merge_fans_out_on_duplicate_keys :
  List.length (df_merged_of [acc_20_PM]
                 [mkCoverage 20%Z "PM" 0.4 0.2; mkCoverage 20%Z "PM" 0.5 0.2])
  = 2%nat.
Proof. reflexivity. Qed.

Lemma unmatched_row_sentinel_asymmetry_witness :
  In (mkMerged acc_30_PM (-1) nan)
     (df_merged_of sample_accuracy sample_coverage) /\
  forall m, In m (df_merged_of sample_accuracy sample_coverage) ->
            acc_part m = acc_30_PM ->
            fractionTrackedExplained m = (-1)%float /\
            fractionOnFullyMissingTrips m = nan /\
            is_nan (fractionOnFullyMissingTrips m) = true.
Proof.
  apply (unmatched_row_sentinel_asymmetry sample_accuracy sample_coverage
           acc_30_PM).
  - simpl. auto.
  - reflexivity.
Defined.

Lemma matched_row_carries_coverage_witness :
  In (mkMerged acc_10_AM_0_5 0.9 0.1)
     (df_merged_of sample_accuracy sample_coverage) /\
  forall m, In m (df_merged_of sample_accuracy sample_coverage) ->
            acc_part m = acc_10_AM_0_5 -> m = mkMerged acc_10_AM_0_5 0.9 0.1.
Proof.
  apply (matched_row_carries_coverage sample_accuracy sample_coverage
           acc_10_AM_0_5 (mkCoverage 10%Z "AM" 0.9 0.1)
           sample_coverage_keys_unique).
  - simpl. auto.
  - simpl. auto.
  - reflexivity.
Defined.

(** ** The tables of a run *)

Section RunFacts.
Context {R P B : Type} {KR : KeyType R} {KP : KeyType P}.
Implicit Types (a : AccuracyRecord R P B) (c : CoverageRecord R P)
  (m : MergedRecord R P B) (acc : list (AccuracyRecord R P B))
  (cov : list (CoverageRecord R P)) (df : list (MergedRecord R P B))
  (sp : list P) (sr : list R).

Lemma run_df_merged acc cov sp sr :
  df_merged (run acc cov sp sr) = df_merged_of acc cov.
Proof. reflexivity. Qed.

Lemma run_df_merged_filtered acc cov sp sr :
  df_merged_filtered (run acc cov sp sr) =
  df_merged_filtered_of sp sr (df_corr_analysis_of (df_merged_of acc cov)).
Proof. reflexivity. Qed.

Lemma in_df_corr_analysis df m :
  In m (df_corr_analysis_of df) ->
  (fractionTrackedExplained m =? sentinel)%float = false.
Proof.
  unfold df_corr_analysis_of. intros H. apply filter_In in H.
  destruct H as [_ H]. now apply negb_true_iff in H.
Qed.

Lemma sentinel_row_not_analysed df m :
  fractionTrackedExplained m = sentinel -> ~ In m (df_corr_analysis_of df).
Proof.
  intros E H. apply in_df_corr_analysis in H. rewrite E in H.
  vm_compute in H. discriminate.
Qed.

Lemma sentinel_row_not_filtered sp sr df m :
  fractionTrackedExplained m = sentinel ->
  ~ In m (df_merged_filtered_of sp sr (df_corr_analysis_of df)).
Proof.
  intros E H. unfold df_merged_filtered_of in H. apply filter_In in H.
  destruct H as [H _]. now apply (sentinel_row_not_analysed df m).
Qed.

(** C4, as the program has it: a merged row without coverage match carries
    the sentinel [-1] in [df_merged], the table [load_data] returns; it is in
    neither the correlation input nor the merged table that tab 4 displays,
    which is the filtered correlation input. *)
Theorem unmatched_row_kept_in_df_merged_only acc cov
  (selected_periods : list P) (selected_routes : list R) a :
  In a acc -> has_match cov a = false ->
  let r := run acc cov selected_periods selected_routes in
  In (mkMerged a (-1) nan) (df_merged r) /\
  forall m, In m (df_merged r) -> acc_part m = a ->
            fractionTrackedExplained m = (-1)%float /\
            ~ In m (df_corr_analysis r) /\
            ~ In m (df_merged_filtered r) /\
            ~ In m (tab4_merged_display r).
Proof.
  intros Ha Hno r.
  destruct (unmatched_rows acc cov a Ha Hno) as [Hin Hall].
  split; [exact Hin|]. intros m Hm Hacc.
  assert (Hs : fractionTrackedExplained m = sentinel)
    by now rewrite (Hall m Hm Hacc).
  split; [exact Hs|].
  split; [|split].
  - now apply sentinel_row_not_analysed.
  - now apply sentinel_row_not_filtered.
  - now apply sentinel_row_not_filtered.
Qed.

Lemma fillna_present v x : is_nan (fillna v x) = is_nan v && is_nan x.
Proof.
  unfold fillna. destruct (is_nan x) eqn:E; [now rewrite andb_true_r|].
  now rewrite E, andb_false_r.
Qed.


(** X4: no cell of [fractionTrackedExplained] is missing in the merged
    table.  A coverage row whose own cell is missing gives, for an accuracy
    row of its key, a merged row with the sentinel [-1], exactly as if there
    were no coverage row, and that merged row is left out of the correlation
    analysis. *)
Theorem missing_coverage_cell_becomes_sentinel acc cov a c :
  In a acc -> In c cov -> key_match a c = true ->
  is_nan (cov_fractionTrackedExplained c) = true ->
  let row := mkMerged a (-1) (cov_fractionOnFullyMissingTrips c) in
  (forall m, In m (df_merged_of acc cov) ->
             is_nan (fractionTrackedExplained m) = false) /\
  In row (df_merged_of acc cov) /\
  ~ In row (df_corr_analysis_of (df_merged_of acc cov)).
Proof.
  intros Ha Hc E Hnan row. split; [|split].
  - intros m Hm. apply in_df_merged in Hm.
    destruct Hm as [a' [m0 [_ [_ ->]]]]. simpl. now rewrite fillna_present.
  - apply in_df_merged.
    exists a, (mkMerged a (cov_fractionTrackedExplained c)
                          (cov_fractionOnFullyMissingTrips c)).
    split; [exact Ha|]. split.
    + unfold merge_row.
      assert (Hin : In c (filter (key_match a) cov))
        by (apply filter_In; auto).
      destruct (filter (key_match a) cov) as [|c0 ms]; [contradiction|].
      apply in_map_iff. exists c. auto.
    + unfold fill_sentinel, fillna. simpl. now rewrite Hnan.
  - now apply sentinel_row_not_analysed.
Qed.

End RunFacts.

Lemma unmatched_row_kept_in_df_merged_only_witness :
  let r := run sample_accuracy sample_coverage ["AM"; "PM"]
               [10; 20; 30]%Z in
  In (mkMerged acc_30_PM (-1) nan) (df_merged r) /\
  forall m, In m (df_merged r) -> acc_part m = acc_30_PM ->
            fractionTrackedExplained m = (-1)%float /\
            ~ In m (df_corr_analysis r) /\
            ~ In m (df_merged_filtered r) /\
            ~ In m (tab4_merged_display r).
Proof.
  apply (unmatched_row_kept_in_df_merged_only sample_accuracy sample_coverage
           ["AM"; "PM"] [10; 20; 30]%Z acc_30_PM).
  - simpl. auto.
  - reflexivity.
Defined.

(** C4 as stated fails: with every period and every route selected, the
    row of route 30, which has no coverage row, is in [df_merged] with the
    sentinel, and the merged table that tab 4 displays has three rows, none
    of which is that row. *)
Lemma unmatched_row_not_displayed :
  let r := run sample_accuracy sample_coverage ["AM"; "PM"]
               [10; 20; 30]%Z in
  has_match sample_coverage acc_30_PM = false /\
  In (mkMerged acc_30_PM (-1) nan) (df_merged r) /\
  List.length (tab4_merged_display r) = 3%nat /\
  ~ In (mkMerged acc_30_PM (-1) nan) (tab4_merged_display r).
Proof.
  split; [reflexivity|]. split; [|split].
  - vm_compute. auto.
  - reflexivity.
  - apply sentinel_row_not_filtered. reflexivity.
Qed.

Lemma missing_coverage_cell_becomes_sentinel_witness :
  let cov := [mkCoverage 20%Z "PM" nan 0.2] in
  (forall m, In m (df_merged_of sample_accuracy cov) ->
             is_nan (fractionTrackedExplained m) = false) /\
  In (mkMerged acc_20_PM (-1) 0.2) (df_merged_of sample_accuracy cov) /\
  ~ In (mkMerged acc_20_PM (-1) 0.2)
       (df_corr_analysis_of (df_merged_of sample_accuracy cov)).
Proof.
  apply (missing_coverage_cell_becomes_sentinel sample_accuracy
           [mkCoverage 20%Z "PM" nan 0.2] acc_20_PM
           (mkCoverage 20%Z "PM" nan 0.2)).
  - simpl. auto.
  - simpl. auto.
  - reflexivity.
  - reflexivity.
Defined.

(** ** The correlation *)

Lemma select_map_fst {A : Type} (fa fb : A -> float)
  (f : float * float -> bool) (l : list A) :
  select (map f (combine (map fa l) (map fb l))) (map fa l) =
  map fa (filter (fun m => f (fa m, fb m)) l).
Proof.
  induction l as [|m l IH]; simpl; [reflexivity|].
  destruct (f (fa m, fb m)); simpl; now rewrite IH.
Qed.

Lemma select_map_snd {A : Type} (fa fb : A -> float)
  (f : float * float -> bool) (l : list A) :
  select (map f (combine (map fa l) (map fb l))) (map fb l) =
  map fb (filter (fun m => f (fa m, fb m)) l).
Proof.
  induction l as [|m l IH]; simpl; [reflexivity|].
  destruct (f (fa m, fb m)); simpl; now rewrite IH.
Qed.

Lemma np_corrcoef_nil : np_corrcoef [] [] = nan.
Proof. reflexivity. Qed.

Section CorrFacts.
Context {R P B : Type} {KR : KeyType R} {KP : KeyType P}.
Implicit Types (m : MergedRecord R P B) (acc : list (AccuracyRecord R P B))
  (cov : list (CoverageRecord R P)) (df : list (MergedRecord R P B)).

(** [Series.corr] on two columns of one table hands the routine the two
    columns of the rows of the table that are complete, and gives a missing
    value without calling it when no row is complete. *)
Lemma correlation_with_pairwise_complete
  (pearson : list float -> list float -> float) df :
  correlation_with pearson df =
  match pairwise_complete df with
  | [] => nan
  | used => pearson (map fractionTrackedExplained used)
                    (map m_accurate_pct used)
  end.
Proof.
  unfold correlation_with, Series_corr_with, nancorr_with, pairwise_complete.
  rewrite select_map_fst, select_map_snd. simpl fst. simpl snd.
  set (used := filter _ df).
  destruct df as [|m df].
  - reflexivity.
  - rewrite length_map. simpl (_ =? 0)%nat. cbv iota.
    rewrite length_map. destruct used as [|u used]; reflexivity.
Qed.

Lemma correlation_of_pairwise_complete df :
  correlation_of df =
  np_corrcoef (map fractionTrackedExplained (pairwise_complete df))
              (map m_accurate_pct (pairwise_complete df)).
Proof.
  unfold correlation_of. rewrite correlation_with_pairwise_complete.
  destruct (pairwise_complete df); reflexivity.
Qed.



(** X9: when no accuracy row has a coverage row of its key (an empty
    coverage table, or disjoint keys), every merged row carries the sentinel,
    the correlation analysis has no row, and tab 1 shows the warning whatever
    the selection. *)
Theorem no_coverage_match_shows_warning acc cov (sp : list P) (sr : list R) :
  (forall a, In a acc -> has_match cov a = false) ->
  let r := run acc cov sp sr in
  (forall m, In m (df_merged r) ->
             fractionTrackedExplained m = (-1)%float) /\
  df_corr_analysis r = [] /\
  tab1_correlation (df_merged_filtered r) = NoDataWarning.
Proof.
  intros H r.
  assert (S : forall m, In m (df_merged r) ->
                        fractionTrackedExplained m = (-1)%float).
  { intros m Hm. apply in_df_merged in Hm.
    destruct Hm as [a [m0 [Ha [Hm0 ->]]]].
    rewrite (merge_row_unmatched cov a (H a Ha)) in Hm0.
    destruct Hm0 as [<-|[]]. reflexivity. }
  assert (E : df_corr_analysis r = []).
  { apply filter_nil_iff. intros m Hm. now rewrite (S m Hm). }
  split; [exact S|]. split; [exact E|].
  change (df_merged_filtered r)
    with (df_merged_filtered_of sp sr (df_corr_analysis r)).
  now rewrite E.
Qed.

Lemma tab1_correlation_empty :
  tab1_correlation (@nil (MergedRecord R P B)) = NoDataWarning.
Proof. reflexivity. Qed.

Lemma tab1_correlation_nonempty m df :
  tab1_correlation (m :: df) =
  CorrelationMetric (correlation_of (m :: df))
                    (correlation_band (correlation_of (m :: df))).
Proof. reflexivity. Qed.

(** X11: when the selected rows are not empty but each of them misses
    [accurate_pct], the correlation is missing; tab 1 shows it in the metric
    with the band "no clear correlation", not the warning. *)
Theorem incomplete_rows_shown_as_no_clear_correlation m df :
  (forall x, In x (m :: df) -> is_nan (m_accurate_pct x) = true) ->
  correlation_of (m :: df) = nan /\
  tab1_correlation (m :: df) = CorrelationMetric nan NoClearCorrelation.
Proof.
  intros H.
  assert (E : pairwise_complete (m :: df) = []).
  { apply filter_nil_iff. intros x Hx. unfold notna. rewrite (H x Hx).
    apply andb_false_r. }
  assert (C : correlation_of (m :: df) = nan)
    by now rewrite correlation_of_pairwise_complete, E.
  split; [exact C|]. rewrite tab1_correlation_nonempty, C. reflexivity.
Qed.

End CorrFacts.


(** ** The band of a correlation *)

Section Band.
Import FloatOrder.
Local Open Scope float_scope.

Lemma threshold_keys :
  fkey 0.5 = (1, -53, 4503599627370496)%Z /\
  fkey 0.2 = (1, -55, 7205759403792794)%Z /\
  fkey (-0.2) = (-1, 55, -7205759403792794)%Z.
Proof. vm_compute. auto. Qed.

Lemma threshold_not_nan :
  is_nan 0.5 = false /\ is_nan 0.2 = false /\ is_nan (-0.2) = false.
Proof. vm_compute. auto. Qed.

(** A missing correlation passes no test and lands in the last branch. *)
Lemma correlation_band_nan v :
  is_nan v = true -> correlation_band v = NoClearCorrelation.
Proof.
  intros Hv. unfold correlation_band.
  destruct (0.5 <? v) eqn:E1.
  { apply ltb_iff in E1. destruct E1 as [_ [E1 _]]. congruence. }
  destruct (0.2 <? v) eqn:E2.
  { apply ltb_iff in E2. destruct E2 as [_ [E2 _]]. congruence. }
  destruct (v <? -0.2) eqn:E3.
  { apply ltb_iff in E3. destruct E3 as [E3 _]. congruence. }
  reflexivity.
Qed.

Ltac float_cmp E :=
  match type of E with
  | (_ <? _) = true => apply ltb_iff in E; destruct E as [_ [_ E]]
  | (_ <? _) = false => apply ltb_false_iff in E; [|assumption|assumption]
  end.

(** C3: on a correlation value [v] the bands are tested in order, the first
    that holds being taken: [v > 0.5] strong positive, else [v > 0.2]
    (so [0.2 < v <= 0.5]) moderate positive, else [v < -0.2] negative, else
    ([-0.2 <= v <= 0.2]) no clear correlation; and 0.6, 0.3, -0.3 and 0.1 get
    these four bands. *)
Theorem correlation_band_ranges :
  (forall v, is_nan v = false ->
     (correlation_band v = StrongPositive <-> (0.5 <? v) = true) /\
     (correlation_band v = ModeratePositive <->
        (0.2 <? v) = true /\ (v <=? 0.5) = true) /\
     (correlation_band v = NegativeUnexpected <-> (v <? -0.2) = true) /\
     (correlation_band v = NoClearCorrelation <->
        (-0.2 <=? v) = true /\ (v <=? 0.2) = true)) /\
  correlation_band 0.6 = StrongPositive /\
  correlation_band 0.3 = ModeratePositive /\
  correlation_band (-0.3) = NegativeUnexpected /\
  correlation_band 0.1 = NoClearCorrelation.
Proof.
  split; [|repeat split; reflexivity].
  intros v Hv.
  destruct threshold_keys as [K5 [K2 Km2]].
  destruct threshold_not_nan as [N5 [N2 Nm2]].
  unfold correlation_band.
  rewrite !leb_iff, (ltb_iff v (-0.2)).
  destruct (0.5 <? v) eqn:E1; [float_cmp E1|float_cmp E1];
    (destruct (0.2 <? v) eqn:E2; [float_cmp E2|float_cmp E2]);
    (destruct (v <? -0.2) eqn:E3; [float_cmp E3|float_cmp E3]);
    rewrite ?K5, ?K2, ?Km2 in *;
    destruct (fkey v) as [[k1 k2] k3]; unfold lex_lt, lex_le in *;
    (split; [|split; [|split]]); (split; intros H);
    try discriminate; try reflexivity; try (exfalso; lia);
    try (repeat split; try assumption; lia).
Qed.

Lemma correlation_band_ranges_witness :
  is_nan 0.35 = false /\
  (correlation_band 0.35 = ModeratePositive <->
     (0.2 <? 0.35) = true /\ (0.35 <=? 0.5) = true).
Proof.
  split; [reflexivity|].
  exact (proj1 (proj2 (proj1 correlation_band_ranges 0.35 eq_refl))).
Defined.

End Band.

(** ** Missing correlation *)

(** C5 on the code: with one row selected, and with one selected row whose
    [accurate_pct] is missing, the correlation is [nan]; tab 1 hands it to
    the metric like a number and shows the band "no clear correlation".
    Only the table without rows gets the warning. *)
Theorem single_row_correlation_shown_as_metric :
  let one := run [acc_10_AM_0_5] [mkCoverage 10%Z "AM" 0.9 0.1] ["AM"]
                 [10%Z] in
  let none := run [mkAccuracy 10%Z "AM" "0-5" nan 0.1 0.1 100]
                  [mkCoverage 10%Z "AM" 0.9 0.1] ["AM"] [10%Z] in
  List.length (df_merged_filtered one) = 1%nat /\
  tab1_correlation (df_merged_filtered one) =
    CorrelationMetric nan NoClearCorrelation /\
  List.length (pairwise_complete (df_merged_filtered none)) = 0%nat /\
  tab1_correlation (df_merged_filtered none) =
    CorrelationMetric nan NoClearCorrelation /\
  tab1_correlation (@nil (MergedRecord Z string string)) = NoDataWarning.
Proof. repeat split; reflexivity. Qed.

Lemma no_coverage_match_shows_warning_witness :
  let r := run sample_accuracy [] ["AM"; "PM"] [10; 20; 30]%Z in
  (forall m, In m (df_merged r) ->
             fractionTrackedExplained m = (-1)%float) /\
  df_corr_analysis r = [] /\
  tab1_correlation (df_merged_filtered r) = NoDataWarning.
Proof.
  apply (no_coverage_match_shows_warning sample_accuracy []
           ["AM"; "PM"] [10; 20; 30]%Z).
  intros a _. reflexivity.
Defined.

Lemma incomplete_rows_shown_as_no_clear_correlation_witness :
  let m := mkMerged (mkAccuracy 10%Z "AM" "0-5" nan 0.1 0.1 100) 0.9 0.1 in
  correlation_of [m] = nan /\
  tab1_correlation [m] = CorrelationMetric nan NoClearCorrelation.
Proof.
  apply (incomplete_rows_shown_as_no_clear_correlation
           (mkMerged (mkAccuracy 10%Z "AM" "0-5" nan 0.1 0.1 100) 0.9 0.1) []).
  intros x [<-|[]]. reflexivity.
Defined.

(** ** Distinct values *)

Section UniqueFacts.
Context {K : Type} {KK : KeyType K}.
Implicit Types (x : K) (l seen : list K).

Lemma unique_from_In seen l x :
  In x (unique_from seen l) <-> In x l /\ ~ In x seen.
Proof.
  revert seen. induction l as [|y l IH]; intros seen; simpl.
  - tauto.
  - destruct (isin y seen) eqn:E.
    + apply isin_In in E. rewrite IH. split.
      * intros [H1 H2]. auto.
      * intros [[<-|H1] H2]; [contradiction|auto].
    + apply isin_false in E. simpl. rewrite IH. simpl. split.
      * intros [<-|[H1 H2]]; [auto|]. split; [auto|]. intros H. apply H2. auto.
      * intros [[<-|H1] H2]; [auto|].
        destruct (key_dec y x) as [->|Hne]; [auto|]. right.
        split; [assumption|]. intros [H|H]; [contradiction|contradiction].
Qed.

Lemma unique_In l x : In x (unique l) <-> In x l.
Proof. unfold unique. rewrite unique_from_In. simpl. tauto. Qed.

Lemma unique_from_NoDup seen l : NoDup (unique_from seen l).
Proof.
  revert seen. induction l as [|y l IH]; intros seen; simpl.
  - constructor.
  - destruct (isin y seen); [apply IH|]. constructor; [|apply IH].
    rewrite unique_from_In. simpl. intros [_ H]. apply H. auto.
Qed.

Lemma unique_NoDup l : NoDup (unique l).
Proof. apply unique_from_NoDup. Qed.

Lemma unique_nonempty x l : (0 < List.length (unique (x :: l)))%nat.
Proof. unfold unique. simpl. lia. Qed.

Lemma unique_from_skip seen x blk rest :
  isin x seen = true -> (forall y, In y blk -> y = x) ->
  unique_from seen (blk ++ rest) = unique_from seen rest.
Proof.
  intros Hx. induction blk as [|y blk IH]; simpl; intros H; [reflexivity|].
  rewrite (H y (or_introl eq_refl)), Hx. apply IH. intros z Hz. apply H.
  now right.
Qed.

Lemma unique_from_block seen x blk rest :
  (forall y, In y blk -> y = x) ->
  unique_from seen (x :: blk ++ rest) = unique_from seen (x :: rest).
Proof.
  intros H. simpl. destruct (isin x seen) eqn:E.
  - now apply unique_from_skip with (x := x).
  - f_equal. apply unique_from_skip with (x := x); [|exact H].
    simpl. now rewrite key_eqb_refl.
Qed.

Lemma unique_from_cons_ext seen x l l' :
  (forall seen', unique_from seen' l = unique_from seen' l') ->
  unique_from seen (x :: l) = unique_from seen (x :: l').
Proof. intros H. simpl. now rewrite !H. Qed.

End UniqueFacts.

(** ** Sorting *)

Lemma insert_sorted_perm {A : Type} (le : A -> A -> bool) x l :
  Permutation (insert_sorted le x l) (x :: l).
Proof.
  induction l as [|y l IH]; simpl; [reflexivity|].
  destruct (le x y); [reflexivity|].
  rewrite IH. apply perm_swap.
Qed.

Lemma sort_by_perm {A : Type} (le : A -> A -> bool) l :
  Permutation (sort_by le l) l.
Proof.
  induction l as [|x l IH]; simpl; [reflexivity|].
  rewrite insert_sorted_perm. now constructor.
Qed.

Lemma sort_by_length {A : Type} (le : A -> A -> bool) l :
  List.length (sort_by le l) = List.length l.
Proof. apply Permutation_length, sort_by_perm. Qed.

Section SortBy.
Context {A : Type} (le : A -> A -> bool).
Hypothesis le_trans :
  forall x y z, le x y = true -> le y z = true -> le x z = true.

Lemma insert_sorted_sorted x l :
  (forall y, In y l -> le x y = true \/ le y x = true) ->
  StronglySorted (fun a b => le a b = true) l ->
  StronglySorted (fun a b => le a b = true) (insert_sorted le x l).
Proof.
  induction l as [|y l IH]; simpl; intros Htot Hs.
  - repeat constructor.
  - inversion Hs as [|y' l' Hs' Hall]; subst.
    destruct (le x y) eqn:E.
    + constructor; [assumption|]. constructor; [exact E|].
      eapply Forall_impl; [|exact Hall]. intros z Hz.
      now apply (le_trans x y z).
    + constructor.
      * apply IH; [intros z Hz; apply Htot; now right|assumption].
      * assert (Hyx : le y x = true).
        { destruct (Htot y (or_introl eq_refl)) as [H|H]; congruence. }
        apply Forall_forall. intros z Hz.
        apply (Permutation_in _ (insert_sorted_perm le x l)) in Hz.
        destruct Hz as [<-|Hz]; [exact Hyx|].
        rewrite Forall_forall in Hall. now apply Hall.
Qed.

Lemma sort_by_sorted l :
  (forall x y, In x l -> In y l -> le x y = true \/ le y x = true) ->
  StronglySorted (fun a b => le a b = true) (sort_by le l).
Proof.
  induction l as [|x l IH]; simpl; intros Htot; [constructor|].
  apply insert_sorted_sorted.
  - intros y Hy. apply (Permutation_in _ (sort_by_perm le l)) in Hy.
    apply Htot; auto.
  - apply IH. intros a b Ha Hb. apply Htot; auto.
Qed.
End SortBy.

Lemma StronglySorted_snoc {A : Type} (R : A -> A -> Prop) l x :
  StronglySorted R l -> Forall (fun y => R y x) l ->
  StronglySorted R (l ++ [x]).
Proof.
  induction l as [|y l IH]; simpl; intros Hs Hall.
  - repeat constructor.
  - inversion Hs; subst. inversion Hall; subst.
    constructor; [now apply IH|].
    apply Forall_app. split; [assumption|]. now repeat constructor.
Qed.

Lemma StronglySorted_rev {A : Type} (R : A -> A -> Prop) l :
  StronglySorted R l -> StronglySorted (fun a b => R b a) (rev l).
Proof.
  induction 1 as [|x l Hs IH Hall]; simpl; [constructor|].
  apply StronglySorted_snoc; [exact IH|].
  apply Forall_forall. intros y Hy. apply in_rev in Hy.
  rewrite Forall_forall in Hall. now apply Hall.
Qed.

Lemma StronglySorted_app_cross {A : Type} (R : A -> A -> Prop) l1 l2 :
  StronglySorted R (l1 ++ l2) ->
  forall a b, In a l1 -> In b l2 -> R a b.
Proof.
  induction l1 as [|x l1 IH]; simpl; intros Hs a b Ha Hb; [contradiction|].
  inversion Hs as [|x' l' Hs' Hall]; subst. destruct Ha as [<-|Ha].
  - rewrite Forall_forall in Hall. apply Hall. apply in_or_app. now right.
  - now apply IH.
Qed.

Section SortedFacts.
Context {K : Type} {KK : KeyType K}.
Implicit Types (x : K) (l : list K).

Lemma sorted_In l x : In x (sorted l) <-> In x l.
Proof.
  unfold sorted. split; apply Permutation_in;
    [|symmetry]; apply sort_by_perm.
Qed.

Lemma sorted_unique_NoDup l : NoDup (sorted (unique l)).
Proof.
  unfold sorted. eapply Permutation_NoDup; [symmetry; apply sort_by_perm|].
  apply unique_NoDup.
Qed.

Lemma sorted_ascending l :
  StronglySorted (fun a b => key_leb a b = true) (sorted l).
Proof.
  unfold sorted. apply sort_by_sorted.
  - exact key_leb_trans.
  - intros x y _ _. apply key_leb_total.
Qed.

Lemma key_leb_neq_ltb x y :
  key_leb x y = true -> x <> y -> key_ltb x y = true.
Proof.
  intros H Hne. unfold key_ltb. rewrite H. simpl.
  apply negb_true_iff. now apply key_eqb_neq.
Qed.

Lemma ascending_distinct_strict l :
  StronglySorted (fun a b => key_leb a b = true) l -> NoDup l ->
  StronglySorted (fun a b => key_ltb a b = true) l.
Proof.
  induction 1 as [|x l Hs IH Hall]; intros ND; constructor.
  - apply IH. now inversion ND.
  - inversion ND as [|y l' Hnot ND']; subst.
    rewrite Forall_forall in *. intros y Hy.
    apply key_leb_neq_ltb; [now apply Hall|].
    intros ->. contradiction.
Qed.

Lemma sorted_unique_strict l :
  StronglySorted (fun a b => key_ltb a b = true) (sorted (unique l)).
Proof.
  apply ascending_distinct_strict;
    [apply sorted_ascending|apply sorted_unique_NoDup].
Qed.

End SortedFacts.

(** ** Filters *)

(** A selection that holds every period and every route of a table keeps
    the table. *)
Lemma full_selection_keeps {A KP KR : Type} {KKP : KeyType KP}
  {KKR : KeyType KR} (period : A -> KP) (route_of : A -> KR)
  (sp : list KP) (sr : list KR) (df : list A) :
  incl (map period df) sp -> incl (map route_of df) sr ->
  filter (fun r => isin (period r) sp && isin (route_of r) sr) df = df.
Proof.
  intros Hp Hr. apply filter_all. intros x Hx. apply andb_true_iff.
  split; apply isin_In; [apply Hp|apply Hr]; now apply in_map.
Qed.

Lemma filter_flat_map {A B : Type} (p : A -> bool) (q : B -> bool)
  (f : A -> list B) (l : list A) :
  (forall x y, In x l -> In y (f x) -> q y = p x) ->
  filter q (flat_map f l) = flat_map f (filter p l).
Proof.
  induction l as [|x l IH]; simpl; intros H; [reflexivity|].
  rewrite filter_app, IH by (intros x' y Hx'; apply H; now right).
  destruct (p x) eqn:E; simpl; [f_equal|].
  - apply filter_all. intros y Hy. rewrite <- E. apply H; auto.
  - replace (filter q (f x)) with (@nil B); [reflexivity|].
    symmetry. apply filter_nil_iff. intros y Hy. rewrite <- E.
    apply H; auto.
Qed.

Lemma filter_map_commute {A B : Type} (p : A -> bool) (q : B -> bool)
  (f : A -> B) (l : list A) :
  (forall x, q (f x) = p x) -> filter q (map f l) = map f (filter p l).
Proof.
  intros H. induction l as [|x l IH]; simpl; [reflexivity|].
  rewrite H. destruct (p x); simpl; now rewrite IH.
Qed.

Lemma sum_of_positive_terms {A : Type} (f : A -> nat) (l : list A) :
  (forall a, In a l -> (1 <= f a)%nat) ->
  (list_sum (map f l) = List.length l <->
   forall a, In a l -> f a = 1%nat).
Proof.
  induction l as [|a l IH]; intros Hpos.
  - simpl. split; [intros _ a []|reflexivity].
  - cbn [map List.length]. change (list_sum (?x :: ?t)) with (x + list_sum t)%nat.
    assert (Hge : (List.length l <= list_sum (map f l))%nat).
    { clear IH. induction l as [|b l IH']; [simpl; lia|].
      cbn [map List.length].
      change (list_sum (?x :: ?t)) with (x + list_sum t)%nat.
      assert (1 <= f b)%nat by (apply Hpos; simpl; auto).
      assert (List.length l <= list_sum (map f l))%nat.
      { apply IH'. intros c [Hc|Hc]; apply Hpos; simpl; auto. }
      lia. }
    assert (Ha : (1 <= f a)%nat) by (apply Hpos; now left).
    split.
    + intros E b [<-|Hb]; [lia|]. apply IH; [|lia|exact Hb].
      intros c Hc. apply Hpos. now right.
    + intros H. rewrite (H a (or_introl eq_refl)).
      assert (E : list_sum (map f l) = List.length l).
      { apply IH.
        - intros c Hc. apply Hpos. now right.
        - intros c Hc. apply H. now right. }
      lia.
Qed.

Section FilterFacts.
Context {R P B : Type} {KR : KeyType R} {KP : KeyType P}.
Implicit Types (a : AccuracyRecord R P B) (c : CoverageRecord R P)
  (m : MergedRecord R P B) (acc : list (AccuracyRecord R P B))
  (cov : list (CoverageRecord R P)) (df : list (MergedRecord R P B))
  (sp : list P) (sr : list R).

(** The distinct values of a column of the accuracy table, read in the
    merged table, are those read in the accuracy table, in the same order. *)
Lemma unique_of_merged_column {K : Type} {KK : KeyType K}
  (f : AccuracyRecord R P B -> K) acc cov :
  unique (map (fun m => f (acc_part m)) (df_merged_of acc cov)) =
  unique (map f acc).
Proof.
  unfold unique, df_merged_of, load_data, pd_merge_left. simpl.
  generalize (@nil K) as seen.
  induction acc as [|a acc IH]; intros seen; simpl; [reflexivity|].
  rewrite map_app, map_app.
  destruct (merge_row cov a) as [|m0 ms] eqn:E.
  { destruct (merge_row_nonempty cov a) as [m Hm]. rewrite E in Hm.
    contradiction. }
  assert (H0 : acc_part m0 = a)
    by (apply (merge_row_acc cov); rewrite E; now left).
  cbn [map app]. cbn [fill_sentinel acc_part]. rewrite H0.
  rewrite unique_from_block.
  - apply unique_from_cons_ext. exact IH.
  - intros y Hy. rewrite map_map in Hy. apply in_map_iff in Hy.
    destruct Hy as [m [<- Hm]]. simpl. f_equal.
    apply (merge_row_acc cov). rewrite E. now right.
Qed.

(** Selecting rows of the merged table is merging the selected rows of the
    accuracy table. *)
Lemma select_then_merge sp sr acc cov :
  filter (fun m => isin (m_timePeriod m) sp && isin (m_routeID m) sr)
         (df_merged_of acc cov) =
  df_merged_of (df_acc_filtered_of sp sr acc) cov.
Proof.
  unfold df_merged_of, load_data, pd_merge_left, df_acc_filtered_of. simpl.
  rewrite (filter_map_commute
             (fun m => isin (m_timePeriod m) sp && isin (m_routeID m) sr));
    [|reflexivity].
  f_equal. apply filter_flat_map. intros a m _ Hm.
  unfold m_timePeriod, m_routeID. now rewrite (merge_row_acc _ _ _ Hm).
Qed.

Lemma merge_of_selected_rows acc cov sp sr :
  df_merged_filtered (run acc cov sp sr) =
  df_corr_analysis_of (df_merged_of (df_acc_filtered (run acc cov sp sr)) cov).
Proof.
  simpl. rewrite <- select_then_merge.
  unfold df_merged_filtered_of, df_corr_analysis_of.
  rewrite !filter_filter. apply filter_ext. intros m. apply andb_comm.
Qed.

(** C7, as the program has it: with every period and every route the
    sidebar offers selected, which are the distinct values of the merged
    table, the accuracy filter returns the accuracy table and the merged
    filter returns the correlation input, row for row and in order; the
    coverage filter keeps the coverage rows whose period and route occur in
    the accuracy table, and returns the coverage table exactly when every
    coverage row is such. *)
Theorem full_offered_selection acc cov (sp0 : list P) (sr0 : list R) :
  let options := run acc cov sp0 sr0 in
  let r := run acc cov (unique_periods options) (unique_routes options) in
  df_acc_filtered r = df_accuracy r /\
  df_merged_filtered r = df_corr_analysis r /\
  df_cov_filtered r =
    filter (fun c => isin (cov_timePeriod c) (map timePeriod acc)
                     && isin (route c) (map routeID acc)) (df_coverage r) /\
  (df_cov_filtered r = df_coverage r <->
   forall c, In c cov -> In (cov_timePeriod c) (map timePeriod acc) /\
                         In (route c) (map routeID acc)).
Proof.
  intros options r.
  assert (Hp : forall x, In x (unique_periods options) <->
                         In x (map timePeriod acc)).
  { intros x. simpl. unfold unique_periods_of. rewrite unique_In.
    apply df_merged_periods. }
  assert (Hr : forall x, In x (unique_routes options) <->
                         In x (map routeID acc)).
  { intros x. simpl. unfold unique_routes_of. rewrite sorted_In, unique_In.
    apply df_merged_routes. }
  assert (Hc : df_cov_filtered r =
               filter (fun c => isin (cov_timePeriod c) (map timePeriod acc)
                                && isin (route c) (map routeID acc)) cov).
  { simpl. unfold df_cov_filtered_of. apply filter_ext. intros c.
    now rewrite (isin_same_members _ _ _ Hp), (isin_same_members _ _ _ Hr). }
  split; [|split; [|split]].
  - apply full_selection_keeps; intros x Hx; [now apply Hp|now apply Hr].
  - apply full_selection_keeps; intros x Hx.
    + apply Hp. apply (proj1 (df_merged_periods acc cov x)).
      apply in_map_iff in Hx.
      destruct Hx as [m [<- Hm]]. apply in_map.
      unfold df_corr_analysis_of in Hm. now apply filter_In in Hm.
    + apply Hr. apply (proj1 (df_merged_routes acc cov x)).
      apply in_map_iff in Hx.
      destruct Hx as [m [<- Hm]]. apply in_map.
      unfold df_corr_analysis_of in Hm. now apply filter_In in Hm.
  - exact Hc.
  - rewrite Hc. change (df_coverage r) with cov. split.
    + intros E c Hin. apply (filter_id_all _ _ E) in Hin.
      apply andb_true_iff in Hin. now rewrite !isin_In in Hin.
    + intros H. apply filter_all. intros c Hin. apply andb_true_iff.
      rewrite !isin_In. now apply H.
Qed.

(** C8: a selection that no row satisfies gives an empty table in each of
    the three filters; on an empty table each of the four views is empty,
    and the tabs show their "no data" message. *)
Theorem empty_selection_gives_empty_views {KB : KeyType B} :
  (forall sp sr (df : list (AccuracyRecord R P B)),
      (forall a, In a df ->
                 isin (timePeriod a) sp && isin (routeID a) sr = false) ->
      df_acc_filtered_of sp sr df = []) /\
  (forall sp sr (df : list (CoverageRecord R P)),
      (forall c, In c df ->
                 isin (cov_timePeriod c) sp && isin (route c) sr = false) ->
      df_cov_filtered_of sp sr df = []) /\
  (forall sp sr (df : list (MergedRecord R P B)),
      (forall m, In m df ->
                 isin (m_timePeriod m) sp && isin (m_routeID m) sr = false) ->
      df_merged_filtered_of sp sr df = []) /\
  df_grouped_of (@nil (AccuracyRecord R P B)) = [] /\
  df_grouped_route_of (@nil (AccuracyRecord R P B)) = [] /\
  df_grouped_period_of (@nil (CoverageRecord R P)) = [] /\
  df_grouped_route_cov_of (@nil (CoverageRecord R P)) = [] /\
  tab1_correlation (@nil (MergedRecord R P B)) = NoDataWarning /\
  tab2 (@nil (AccuracyRecord R P B)) = NoAccuracyData /\
  tab3 (@nil (CoverageRecord R P)) = NoCoverageData.
Proof.
  split; [|split; [|split]].
  - intros sp sr df H. now apply filter_nil_iff.
  - intros sp sr df H. now apply filter_nil_iff.
  - intros sp sr df H. now apply filter_nil_iff.
  - repeat split; reflexivity.
Qed.

(** C10: the routes offered for selection are the distinct [routeID]s of
    the accuracy table, each once.  The route of a coverage row that no
    accuracy row has is not among them, is not in the default selection, and
    no selection made of offered routes keeps that coverage row. *)
Theorem coverage_only_route_never_selectable acc cov
  (sp0 : list P) (sr0 : list R) c :
  In c cov -> ~ In (route c) (map routeID acc) ->
  let options := unique_routes (run acc cov sp0 sr0) in
  (forall x, In x options <-> In x (map routeID acc)) /\
  NoDup options /\
  ~ In (route c) options /\
  ~ In (route c) (default_routes options) /\
  forall selected_periods selected_routes,
    selectable options selected_routes ->
    ~ In c (df_cov_filtered (run acc cov selected_periods selected_routes)).
Proof.
  intros Hc Hnot options.
  assert (Hopt : forall x, In x options <-> In x (map routeID acc)).
  { intros x. unfold options. simpl. unfold unique_routes_of.
    rewrite sorted_In, unique_In. apply df_merged_routes. }
  split; [exact Hopt|]. split; [apply sorted_unique_NoDup|].
  assert (Hno : ~ In (route c) options) by now rewrite Hopt.
  split; [exact Hno|]. split.
  - intros H. apply Hno. unfold default_routes in H.
    rewrite <- (firstn_skipn 10 options). apply in_or_app. now left.
  - intros sp sr Hsel H. simpl in H. unfold df_cov_filtered_of in H.
    apply filter_In in H. destruct H as [_ H].
    apply andb_true_iff in H. destruct H as [_ H]. apply isin_In in H.
    apply Hno. now apply Hsel.
Qed.

(** X5: the periods and routes offered for selection do not depend on the
    coverage table: the periods are the distinct [timePeriod]s of the
    accuracy table in order of first appearance, and the routes are its
    distinct [routeID]s, sorted as [sorted] orders cells of their type. *)
Theorem options_come_from_accuracy_table acc cov sp sr :
  unique_periods (run acc cov sp sr) = unique (map timePeriod acc) /\
  unique_routes (run acc cov sp sr) = sorted (unique (map routeID acc)).
Proof.
  split.
  - apply (unique_of_merged_column timePeriod).
  - simpl. unfold unique_routes_of. f_equal.
    apply (unique_of_merged_column routeID).
Qed.

(** X6: the routes offered are in strictly ascending order, that of
    numbers for integer identifiers and of strings for text.  The default
    selection is their first ten, or all of them when there are at most ten:
    it is made of offered routes, and each route left out of it is above
    each route in it. *)
Theorem route_options_ascending_default_first_ten acc cov sp sr :
  let options := unique_routes (run acc cov sp sr) in
  let default := default_routes options in
  StronglySorted (fun k1 k2 => key_ltb k1 k2 = true) options /\
  List.length default = Nat.min 10 (List.length options) /\
  selectable options default /\
  exists rest, options = default ++ rest /\
               forall d x, In d default -> In x rest -> key_ltb d x = true.
Proof.
  intros options default.
  assert (Hs : StronglySorted (fun k1 k2 => key_ltb k1 k2 = true) options)
    by apply sorted_unique_strict.
  assert (E : options = default ++ skipn 10 options)
    by (symmetry; apply firstn_skipn).
  split; [exact Hs|]. split; [apply length_firstn|]. split.
  - intros x Hx. rewrite E. apply in_or_app. now left.
  - exists (skipn 10 options). split; [exact E|].
    apply StronglySorted_app_cross. now rewrite <- E.
Qed.

(** X7: the three filtered tables depend on which periods and routes are
    selected, not on the order or the repetitions of the selected values. *)
Theorem filters_depend_on_selected_members acc cov
  (sp sp' : list P) (sr sr' : list R) :
  (forall x, In x sp <-> In x sp') -> (forall x, In x sr <-> In x sr') ->
  df_acc_filtered (run acc cov sp sr) = df_acc_filtered (run acc cov sp' sr') /\
  df_cov_filtered (run acc cov sp sr) = df_cov_filtered (run acc cov sp' sr') /\
  df_merged_filtered (run acc cov sp sr) =
    df_merged_filtered (run acc cov sp' sr').
Proof.
  intros Hp Hr. simpl.
  split; [|split]; apply filter_ext; intros x;
    now rewrite (isin_same_members _ sp sp' Hp),
                (isin_same_members _ sr sr' Hr).
Qed.

(** X8: the selection and the merge commute: the table the correlation is
    computed from is also obtained by merging only the selected accuracy rows
    with the coverage table and then leaving out the sentinel rows. *)
Theorem selection_commutes_with_merge acc cov sp sr :
  let r := run acc cov sp sr in
  df_merged_filtered r =
  df_corr_analysis_of (df_merged_of (df_acc_filtered r) cov).
Proof. intros r. apply merge_of_selected_rows. Qed.

(** X17: the merged table has exactly as many rows as the accuracy table
    if and only if no accuracy row has two or more coverage rows of its key;
    coverage keys repeated elsewhere do not matter. *)
Theorem row_count_kept_iff_no_multiple_match acc cov :
  List.length (df_merged_of acc cov) = List.length acc <->
  forall a, In a acc -> (List.length (filter (key_match a) cov) <= 1)%nat.
Proof.
  rewrite df_merged_length, sum_of_positive_terms
    by (intros a _; apply Nat.le_max_l).
  split; intros H a Ha; specialize (H a Ha); lia.
Qed.

(** X18: with unique coverage keys, the number of data points announced in
    tab 1 is at most the number of selected accuracy rows, and the accuracy
    part of each point is a selected accuracy row. *)
Theorem data_points_bounded_by_selected_rows acc cov sp sr :
  NoDup (map cov_key cov) ->
  let r := run acc cov sp sr in
  (List.length (df_merged_filtered r) <= List.length (df_acc_filtered r))%nat /\
  forall m, In m (df_merged_filtered r) -> In (acc_part m) (df_acc_filtered r).
Proof.
  intros ND r.
  pose proof (merge_of_selected_rows acc cov sp sr) as E. fold r in E.
  pose proof (merged_accuracy_columns (df_acc_filtered r) cov ND) as C.
  split.
  - rewrite E. unfold df_corr_analysis_of.
    eapply Nat.le_trans; [apply filter_length_le|].
    rewrite <- C at 2. now rewrite length_map.
  - intros m Hm. rewrite E in Hm. unfold df_corr_analysis_of in Hm.
    apply filter_In in Hm. destruct Hm as [Hm _].
    rewrite <- C. now apply in_map.
Qed.

End FilterFacts.

(** C7 as stated fails for the coverage table: with every offered period
    and route selected, the coverage row of route 99, a route no accuracy
    row has, is filtered out, and two of the three coverage rows remain. *)
Lemma full_selection_drops_coverage_row :
  let options := run sample_accuracy sample_coverage [] [] in
  let r := run sample_accuracy sample_coverage
               (unique_periods options) (unique_routes options) in
  In (mkCoverage 99%Z "PM" 0.6 0.3) (df_coverage r) /\
  ~ In (mkCoverage 99%Z "PM" 0.6 0.3) (df_cov_filtered r) /\
  List.length (df_coverage r) = 3%nat /\
  List.length (df_cov_filtered r) = 2%nat.
Proof.
  split; [simpl; auto|]. split; [|split; reflexivity].
  vm_compute. intros [H|[H|[]]]; discriminate H.
Qed.

Lemma full_offered_selection_witness :
  let options := run sample_accuracy sample_coverage [] [] in
  let r := run sample_accuracy sample_coverage
               (unique_periods options) (unique_routes options) in
  df_acc_filtered r = sample_accuracy /\
  df_merged_filtered r = df_corr_analysis r /\
  List.length (df_merged_filtered r) = 3%nat /\
  List.length (df_cov_filtered r) = 2%nat.
Proof.
  destruct (full_offered_selection sample_accuracy sample_coverage [] [])
    as [Ha [Hm _]].
  split; [exact Ha|]. split; [exact Hm|]. split; reflexivity.
Defined.

Lemma empty_selection_gives_empty_views_witness :
  let r := run sample_accuracy sample_coverage ["AM"] [20%Z] in
  df_acc_filtered r = [] /\ df_cov_filtered r = [] /\
  df_merged_filtered r = [] /\
  tab2 (df_acc_filtered r) = NoAccuracyData /\
  tab3 (df_cov_filtered r) = NoCoverageData /\
  tab1_correlation (df_merged_filtered r) = NoDataWarning.
Proof.
  assert (Ha : df_acc_filtered_of ["AM"] [20%Z] sample_accuracy = []).
  { apply (proj1 empty_selection_gives_empty_views).
    intros a [<-|[<-|[<-|[<-|[]]]]]; reflexivity. }
  assert (Hc : df_cov_filtered_of ["AM"] [20%Z] sample_coverage = []).
  { apply (proj1 (proj2 (empty_selection_gives_empty_views
                           (R := Z) (P := string) (B := string)))).
    intros c [<-|[<-|[<-|[]]]]; reflexivity. }
  repeat split; try exact Ha; try exact Hc; reflexivity.
Defined.

Lemma coverage_only_route_never_selectable_witness :
  let c := mkCoverage 99%Z "PM" 0.6 0.3 in
  let options := unique_routes (run sample_accuracy sample_coverage [] []) in
  (forall x, In x options <-> In x (map routeID sample_accuracy)) /\
  NoDup options /\
  ~ In (route c) options /\
  ~ In (route c) (default_routes options) /\
  forall selected_periods selected_routes,
    selectable options selected_routes ->
    ~ In c (df_cov_filtered
              (run sample_accuracy sample_coverage
                   selected_periods selected_routes)).
Proof.
  apply (coverage_only_route_never_selectable sample_accuracy sample_coverage
           [] [] (mkCoverage 99%Z "PM" 0.6 0.3)).
  - simpl. auto.
  - simpl. intuition discriminate.
Defined.

(** Twelve routes numbered 12 down to 1: the options are 1 to 12 in the
    order of numbers, and the default leaves out 11 and 12.  The same
    identifiers read as text are ordered as strings. *)
Example numeric_routes_sorted_as_numbers :
  let ids := [12; 11; 10; 9; 8; 7; 6; 5; 4; 3; 2; 1]%Z in
  let acc := map (fun i => mkAccuracy i "AM" "0-5" 0.5 0.25 0.25 10) ids in
  let options := unique_routes (run acc (@nil (CoverageRecord Z string)) [] []) in
  options = [1; 2; 3; 4; 5; 6; 7; 8; 9; 10; 11; 12]%Z /\
  default_routes options = [1; 2; 3; 4; 5; 6; 7; 8; 9; 10]%Z /\
  sorted ["9"; "10"; "2"] = ["10"; "2"; "9"].
Proof. repeat split; reflexivity. Qed.

Lemma filters_depend_on_selected_members_witness :
  df_acc_filtered
    (run sample_accuracy sample_coverage ["AM"; "PM"] [10; 20]%Z)
  = df_acc_filtered
      (run sample_accuracy sample_coverage ["PM"; "AM"; "PM"] [20; 10]%Z) /\
  df_cov_filtered
    (run sample_accuracy sample_coverage ["AM"; "PM"] [10; 20]%Z)
  = df_cov_filtered
      (run sample_accuracy sample_coverage ["PM"; "AM"; "PM"] [20; 10]%Z) /\
  df_merged_filtered
    (run sample_accuracy sample_coverage ["AM"; "PM"] [10; 20]%Z)
  = df_merged_filtered
      (run sample_accuracy sample_coverage ["PM"; "AM"; "PM"] [20; 10]%Z).
Proof.
  apply (filters_depend_on_selected_members sample_accuracy sample_coverage
           ["AM"; "PM"] ["PM"; "AM"; "PM"] [10; 20]%Z [20; 10]%Z);
    intros x; simpl; tauto.
Defined.

Lemma data_points_bounded_by_selected_rows_witness :
  let r := run sample_accuracy sample_coverage ["AM"; "PM"] [10; 30]%Z in
  (List.length (df_merged_filtered r) <= List.length (df_acc_filtered r))%nat /\
  forall m, In m (df_merged_filtered r) -> In (acc_part m) (df_acc_filtered r).
Proof.
  exact (data_points_bounded_by_selected_rows sample_accuracy sample_coverage
           ["AM"; "PM"] [10; 30]%Z sample_coverage_keys_unique).
Defined.

(** ** Sorting by value *)

Lemma filter_partition_perm {A : Type} (f : A -> bool) l :
  Permutation (filter f l ++ filter (fun x => negb (f x)) l) l.
Proof.
  induction l as [|x l IH]; simpl; [reflexivity|].
  destruct (f x); simpl.
  - now constructor.
  - rewrite <- Permutation_middle. now constructor.
Qed.

Lemma sort_values_desc_perm {A : Type} (by_col : A -> float) df :
  Permutation (sort_values_desc by_col df) df.
Proof.
  unfold sort_values_desc.
  rewrite <- Permutation_rev, sort_by_perm, <- Permutation_rev.
  rewrite (filter_ext (fun r => is_nan (by_col r))
             (fun r => negb (notna (by_col r)))).
  - apply filter_partition_perm.
  - intros r. unfold notna. now rewrite negb_involutive.
Qed.

Lemma sort_values_desc_length {A : Type} (by_col : A -> float) df :
  List.length (sort_values_desc by_col df) = List.length df.
Proof. apply Permutation_length, sort_values_desc_perm. Qed.

(** The rows whose value is present come first, in descending order; the
    rows whose value is missing follow. *)
Lemma sort_values_desc_sorted {A : Type} (by_col : A -> float) df :
  exists present missing,
    sort_values_desc by_col df = present ++ missing /\
    StronglySorted (fun a b => (by_col b <=? by_col a)%float = true) present /\
    Forall (fun a => is_nan (by_col a) = false) present /\
    Forall (fun a => is_nan (by_col a) = true) missing.
Proof.
  unfold sort_values_desc.
  set (le := fun a b => (by_col a <=? by_col b)%float).
  set (non_nans := filter (fun r => notna (by_col r)) df).
  exists (rev (sort_by le (rev non_nans))),
         (filter (fun r => is_nan (by_col r)) df).
  assert (Hnn : forall x, In x (rev non_nans) -> is_nan (by_col x) = false).
  { intros x Hx. apply in_rev in Hx. unfold non_nans in Hx.
    apply filter_In in Hx. destruct Hx as [_ Hx]. unfold notna in Hx.
    now apply negb_true_iff in Hx. }
  split; [reflexivity|]. split; [|split].
  - apply (StronglySorted_rev (fun a b => le a b = true)).
    apply sort_by_sorted.
    + intros x y z. apply leb_trans.
    + intros x y Hx Hy. apply leb_total; auto.
  - apply Forall_forall. intros x Hx. apply in_rev in Hx.
    apply (Permutation_in _ (sort_by_perm le (rev non_nans))) in Hx. auto.
  - apply Forall_forall. intros x Hx. now apply filter_In in Hx.
Qed.

(** ** The one-pass group mean *)

Lemma update_at_length {A : Type} i (f : A -> A) l :
  List.length (update_at i f l) = List.length l.
Proof.
  revert i. induction l as [|x l IH]; intros [|i]; simpl; auto.
Qed.

Lemma nth_update_at_same {A : Type} i (f : A -> A) l d :
  (i < List.length l)%nat -> nth i (update_at i f l) d = f (nth i l d).
Proof.
  revert i. induction l as [|x l IH]; intros [|i]; simpl; intros H;
    try lia; [reflexivity|]. apply IH. lia.
Qed.

Lemma nth_update_at_other {A : Type} i j (f : A -> A) l d :
  i <> j -> nth j (update_at i f l) d = nth j l d.
Proof.
  revert i j. induction l as [|x l IH]; intros [|i] [|j]; simpl; intros H;
    try reflexivity; [contradiction|]. apply IH. congruence.
Qed.

Definition mean_step (st : list MeanAcc) (p : nat * float) : list MeanAcc :=
  update_at (fst p) (fun a => mean_add a (snd p)) st.

Lemma mean_fold_length rows st :
  List.length (fold_left mean_step rows st) = List.length st.
Proof.
  revert st. induction rows as [|p rows IH]; intros st; simpl; [reflexivity|].
  rewrite IH. apply update_at_length.
Qed.

(** After the pass, the state of a group is what its own cells, in row
    order, make of its initial state. *)
Lemma mean_fold_nth rows st j :
  (forall p, In p rows -> (fst p < List.length st)%nat) ->
  nth j (fold_left mean_step rows st) mean_zero =
  fold_left mean_add (map snd (filter (fun p => (fst p =? j)%nat) rows))
            (nth j st mean_zero).
Proof.
  revert st. induction rows as [|p rows IH]; intros st H; simpl;
    [reflexivity|].
  rewrite IH.
  - destruct (Nat.eqb_spec (fst p) j) as [E|E]; simpl.
    + subst j. unfold mean_step. rewrite nth_update_at_same; [reflexivity|].
      apply H. now left.
    + unfold mean_step. now rewrite nth_update_at_other.
  - intros q Hq. unfold mean_step. rewrite update_at_length. apply H.
    now right.
Qed.

Lemma nth_repeat_mean_zero n j : nth j (repeat mean_zero n) mean_zero = mean_zero.
Proof.
  revert j. induction n as [|n IH]; intros [|j]; simpl; auto.
Qed.

Section IndexFacts.
Context {K : Type} {KK : KeyType K}.
Implicit Types (k : K) (keys : list K).

Lemma index_of_lt k keys :
  In k keys -> (index_of k keys < List.length keys)%nat.
Proof.
  induction keys as [|k' keys IH]; simpl; intros H; [contradiction|].
  destruct (key_eqb k k') eqn:E; [lia|].
  apply key_eqb_neq in E. destruct H as [H|H]; [congruence|].
  apply IH in H. lia.
Qed.

Lemma nth_index_of k keys d :
  In k keys -> nth (index_of k keys) keys d = k.
Proof.
  induction keys as [|k' keys IH]; simpl; intros H; [contradiction|].
  destruct (key_eqb k k') eqn:E.
  - apply key_eqb_eq in E. now subst.
  - apply key_eqb_neq in E. destruct H as [H|H]; [congruence|]. now apply IH.
Qed.

Lemma index_of_nth j keys d :
  NoDup keys -> (j < List.length keys)%nat ->
  index_of (nth j keys d) keys = j.
Proof.
  revert j. induction keys as [|k' keys IH]; simpl; intros j ND H; [lia|].
  inversion ND as [|x l Hnot ND']; subst.
  destruct j as [|j].
  - now rewrite key_eqb_refl.
  - destruct (key_eqb (nth j keys d) k') eqn:E.
    + apply key_eqb_eq in E. exfalso. apply Hnot. rewrite <- E.
      apply nth_In. lia.
    + f_equal. apply IH; [assumption|lia].
Qed.

Lemma label_is_group j k keys d :
  NoDup keys -> (j < List.length keys)%nat -> In k keys ->
  (index_of k keys =? j)%nat = key_eqb k (nth j keys d).
Proof.
  intros ND Hj Hk. destruct (key_eqb k (nth j keys d)) eqn:E.
  - apply key_eqb_eq in E. subst k. apply Nat.eqb_eq.
    now apply index_of_nth.
  - apply Nat.eqb_neq. intros Hi. apply key_eqb_neq in E. apply E.
    rewrite <- Hi. symmetry. now apply nth_index_of.
Qed.

End IndexFacts.

Lemma combine_map_self {A B : Type} (f : A -> B) (l : list A) :
  combine l (map f l) = map (fun x => (x, f x)) l.
Proof. induction l as [|x l IH]; simpl; [reflexivity|]. now rewrite IH. Qed.

Lemma combine_map_map {A B C : Type} (f : A -> B) (g : A -> C) (l : list A) :
  combine (map f l) (map g l) = map (fun x => (f x, g x)) l.
Proof. induction l as [|x l IH]; simpl; [reflexivity|]. now rewrite IH. Qed.

Section GroupByFacts.
Context {A K : Type} {KK : KeyType K} (key : A -> K).
Implicit Types (df : list A) (col : A -> float) (k : K).

Lemma group_keys_In df k : In k (group_keys key df) <-> In k (map key df).
Proof. unfold group_keys. now rewrite sorted_In, unique_In. Qed.

Lemma group_keys_NoDup df : NoDup (group_keys key df).
Proof. apply sorted_unique_NoDup. Qed.

Lemma group_keys_length df :
  List.length (group_keys key df) = List.length (unique (map key df)).
Proof. unfold group_keys, sorted. apply sort_by_length. Qed.

Lemma labelled_cells col df (keys : list K) j d :
  NoDup keys -> (j < List.length keys)%nat ->
  (forall r, In r df -> In (key r) keys) ->
  map snd (filter (fun p => (fst p =? j)%nat)
                  (map (fun r => (index_of (key r) keys, col r)) df)) =
  map col (filter (fun r => key_eqb (key r) (nth j keys d)) df).
Proof.
  intros ND Hj. induction df as [|r df IH]; intros Hin; simpl; [reflexivity|].
  rewrite (label_is_group j (key r) keys d ND Hj)
    by (apply Hin; now left).
  destruct (key_eqb (key r) (nth j keys d)); simpl; rewrite IH;
    try reflexivity; intros r' Hr'; apply Hin; now right.
Qed.

Lemma nth_map_default {X Y : Type} (f : X -> Y) (l : list X) j d d' :
  (j < List.length l)%nat -> nth j (map f l) d = f (nth j l d').
Proof.
  revert j. induction l as [|x l IH]; intros [|j]; simpl; intros H;
    try lia; [reflexivity|]. apply IH. lia.
Qed.

Lemma group_mean_by_group_from (d0 : K) col df :
  group_mean (List.length (group_keys key df)) (group_labels key df)
             (map col df) =
  map (fun k => mean (map col (group key k df))) (group_keys key df).
Proof.
  unfold group_mean, group_labels. rewrite combine_map_map.
  set (keys := group_keys key df).
  change (fold_left _ ?rows ?st) with (fold_left mean_step rows st).
  set (rows := map (fun r => (index_of (key r) keys, col r)) df).
  assert (Hkeys : forall r, In r df -> In (key r) keys).
  { intros r Hr. apply group_keys_In. now apply in_map. }
  assert (Hlab : forall p, In p rows ->
            (fst p < List.length (repeat mean_zero (List.length keys)))%nat).
  { intros p Hp. unfold rows in Hp. apply in_map_iff in Hp.
    destruct Hp as [r [<- Hr]]. rewrite repeat_length. simpl.
    apply index_of_lt. now apply Hkeys. }
  apply (nth_ext _ _ (mean_out mean_zero) nan).
  - now rewrite !length_map, mean_fold_length, repeat_length.
  - intros j Hj.
    rewrite length_map, mean_fold_length, repeat_length in Hj.
    rewrite map_nth, mean_fold_nth by exact Hlab.
    rewrite nth_repeat_mean_zero.
    rewrite (nth_map_default _ keys j nan d0) by exact Hj.
    unfold mean, group. f_equal. f_equal. unfold rows.
    apply labelled_cells; try assumption. apply group_keys_NoDup.
Qed.

(** The one pass over the rows gives each group the mean of its own
    cells. *)
Lemma group_mean_by_group col df :
  group_mean (List.length (group_keys key df)) (group_labels key df)
             (map col df) =
  map (fun k => mean (map col (group key k df))) (group_keys key df).
Proof.
  destruct df as [|r0 df0]; [reflexivity|].
  apply (group_mean_by_group_from (key r0)).
Qed.

(** A group-by view, group by group. *)
Lemma groupby_mean_by_group col df :
  groupby_mean key col df =
  map (fun k => (k, mean (map col (group key k df)))) (group_keys key df).
Proof.
  unfold groupby_mean. cbv zeta. rewrite group_mean_by_group.
  apply combine_map_self.
Qed.

Lemma groupby_mean3_by_group (c1 c2 c3 : A -> float) df :
  groupby_mean3 key c1 c2 c3 df =
  map (fun k => (k, (mean (map c1 (group key k df)),
                     mean (map c2 (group key k df)),
                     mean (map c3 (group key k df)))))
      (group_keys key df).
Proof.
  unfold groupby_mean3. cbv zeta. rewrite !group_mean_by_group.
  rewrite combine_map_map, combine_map_map. apply combine_map_self.
Qed.

Lemma groupby_mean_In col df k v :
  In (k, v) (groupby_mean key col df) <->
  In k (map key df) /\ v = mean (map col (group key k df)).
Proof.
  rewrite groupby_mean_by_group, in_map_iff. split.
  - intros [k' [E Hk]]. injection E as Ek Ev. subst k'.
    rewrite group_keys_In in Hk. split; [exact Hk|now symmetry].
  - intros [Hk ->]. exists k. split; [reflexivity|].
    now rewrite group_keys_In.
Qed.

Lemma groupby_mean_keys col df :
  map fst (groupby_mean key col df) = group_keys key df.
Proof.
  rewrite groupby_mean_by_group, map_map. simpl. apply map_id.
Qed.

Lemma groupby_mean_length col df :
  List.length (groupby_mean key col df) =
  List.length (unique (map key df)).
Proof.
  now rewrite groupby_mean_by_group, length_map, group_keys_length.
Qed.

Lemma groupby_mean3_In (c1 c2 c3 : A -> float) df k v :
  In (k, v) (groupby_mean3 key c1 c2 c3 df) <->
  In k (map key df) /\
  v = (mean (map c1 (group key k df)), mean (map c2 (group key k df)),
       mean (map c3 (group key k df))).
Proof.
  rewrite groupby_mean3_by_group, in_map_iff. split.
  - intros [k' [E Hk]]. injection E as Ek Ev. subst k'.
    rewrite group_keys_In in Hk. split; [exact Hk|now symmetry].
  - intros [Hk ->]. exists k. split; [reflexivity|].
    now rewrite group_keys_In.
Qed.

Lemma groupby_mean3_keys (c1 c2 c3 : A -> float) df :
  map fst (groupby_mean3 key c1 c2 c3 df) = group_keys key df.
Proof.
  rewrite groupby_mean3_by_group, map_map. simpl. apply map_id.
Qed.

Lemma groupby_mean3_length (c1 c2 c3 : A -> float) df :
  List.length (groupby_mean3 key c1 c2 c3 df) =
  List.length (unique (map key df)).
Proof.
  now rewrite groupby_mean3_by_group, length_map, group_keys_length.
Qed.

End GroupByFacts.


(** ** The views of tabs 2 and 3 (lines 174-238) *)

Section ViewFacts.
Context {R P B : Type} {KR : KeyType R} {KP : KeyType P} {KB : KeyType B}.

(** The accuracy-by-route view, for any table. *)
Lemma accuracy_by_route_view (df_acc_filtered : list (AccuracyRecord R P B)) :
  let view := df_grouped_route_of df_acc_filtered in
  (forall k v, In (k, v) view <->
               In k (map routeID df_acc_filtered) /\
               v = mean (map accurate_pct
                           (group routeID k df_acc_filtered))) /\
  NoDup (map fst view) /\
  exists present missing,
    view = present ++ missing /\
    StronglySorted (fun x y => (snd y <=? snd x)%float = true) present /\
    Forall (fun x => is_nan (snd x) = false) present /\
    Forall (fun x => is_nan (snd x) = true) missing.
Proof.
  intros view. split; [|split].
  - intros k v. unfold view, df_grouped_route_of.
    rewrite <- groupby_mean_In. split; apply Permutation_in;
      [|symmetry]; apply sort_values_desc_perm.
  - unfold view, df_grouped_route_of. eapply Permutation_NoDup.
    + symmetry. apply Permutation_map, sort_values_desc_perm.
    + rewrite groupby_mean_keys. apply group_keys_NoDup.
  - apply sort_values_desc_sorted.
Qed.

(** X12: when the filtered accuracy table has a row, tab 2 shows its two
    charts, with one bar group per distinct Time Bucket and one bar per
    distinct route, hence at least one each; likewise tab 3 shows one bar per
    distinct period and per distinct route of the filtered coverage table. *)
Theorem charts_have_one_bar_per_key :
  (forall (a : AccuracyRecord R P B) (df : list (AccuracyRecord R P B)),
      let t := a :: df in
      tab2 t = AccuracyCharts (df_grouped_of t) (df_grouped_route_of t) /\
      List.length (df_grouped_of t) =
        List.length (unique (map Time_Bucket t)) /\
      List.length (df_grouped_route_of t) =
        List.length (unique (map routeID t)) /\
      (0 < List.length (df_grouped_of t))%nat /\
      (0 < List.length (df_grouped_route_of t))%nat) /\
  (forall (c : CoverageRecord R P) (df : list (CoverageRecord R P)),
      let t := c :: df in
      tab3 t = CoverageCharts (df_grouped_period_of t)
                              (df_grouped_route_cov_of t) /\
      List.length (df_grouped_period_of t) =
        List.length (unique (map cov_timePeriod t)) /\
      List.length (df_grouped_route_cov_of t) =
        List.length (unique (map route t)) /\
      (0 < List.length (df_grouped_period_of t))%nat /\
      (0 < List.length (df_grouped_route_cov_of t))%nat).
Proof.
  split.
  - intros a df t.
    assert (L1 : List.length (df_grouped_of t) =
                 List.length (unique (map Time_Bucket t)))
      by apply groupby_mean3_length.
    assert (L2 : List.length (df_grouped_route_of t) =
                 List.length (unique (map routeID t))).
    { unfold df_grouped_route_of.
      now rewrite sort_values_desc_length, groupby_mean_length. }
    repeat split; try assumption.
    + rewrite L1. apply unique_nonempty.
    + rewrite L2. apply unique_nonempty.
  - intros c df t.
    assert (L1 : List.length (df_grouped_period_of t) =
                 List.length (unique (map cov_timePeriod t)))
      by apply groupby_mean_length.
    assert (L2 : List.length (df_grouped_route_cov_of t) =
                 List.length (unique (map route t))).
    { unfold df_grouped_route_cov_of.
      now rewrite sort_values_desc_length, groupby_mean_length. }
    repeat split; try assumption.
    + rewrite L1. apply unique_nonempty.
    + rewrite L2. apply unique_nonempty.
Qed.

(** X13: the accuracy-by-Time-Bucket view has its rows in strictly
    ascending order of the Time Bucket (numbers as numbers, text as text),
    one row per Time Bucket of the filtered accuracy rows, which holds for
    each of [accurate_pct], [early_pct] and [late_pct] the mean that the one
    pass over the table gives the cells of that Time Bucket, equal to the
    compensated mean of those cells taken alone in row order. *)
Theorem accuracy_by_time_bucket_view
  (df_acc_filtered : list (AccuracyRecord R P B)) :
  let view := df_grouped_of df_acc_filtered in
  StronglySorted (fun x y => key_ltb x y = true) (map fst view) /\
  forall k v,
    In (k, v) view <->
    In k (map Time_Bucket df_acc_filtered) /\
    v = (mean (map accurate_pct (group Time_Bucket k df_acc_filtered)),
         mean (map early_pct (group Time_Bucket k df_acc_filtered)),
         mean (map late_pct (group Time_Bucket k df_acc_filtered))).
Proof.
  intros view. split.
  - unfold view, df_grouped_of. rewrite groupby_mean3_keys.
    apply sorted_unique_strict.
  - intros k v. apply groupby_mean3_In.
Qed.

(** X14: the coverage-by-period view has its rows in strictly ascending
    order of the period, one row per period of the filtered coverage rows,
    which holds the mean that the one pass over the table gives the
    [fractionTrackedExplained] cells of that period, equal to the compensated
    mean of those cells taken alone in row order. *)
Theorem coverage_by_period_view (df_cov_filtered : list (CoverageRecord R P)) :
  let view := df_grouped_period_of df_cov_filtered in
  StronglySorted (fun x y => key_ltb x y = true) (map fst view) /\
  forall k v,
    In (k, v) view <->
    In k (map cov_timePeriod df_cov_filtered) /\
    v = mean (map cov_fractionTrackedExplained
                (group cov_timePeriod k df_cov_filtered)).
Proof.
  intros view. split.
  - unfold view, df_grouped_period_of. rewrite groupby_mean_keys.
    apply sorted_unique_strict.
  - intros k v. apply groupby_mean_In.
Qed.

(** X15: the coverage-by-route view has one row per route of the filtered
    coverage rows, which holds the mean that the one pass over the table
    gives the [fractionTrackedExplained] cells of that route; the rows are
    in descending order of that mean, those whose mean is missing coming
    last. *)
Theorem coverage_by_route_sorted_by_mean
  (df_cov_filtered : list (CoverageRecord R P)) :
  let view := df_grouped_route_cov_of df_cov_filtered in
  (forall k v, In (k, v) view <->
               In k (map route df_cov_filtered) /\
               v = mean (map cov_fractionTrackedExplained
                           (group route k df_cov_filtered))) /\
  NoDup (map fst view) /\
  exists present missing,
    view = present ++ missing /\
    StronglySorted (fun x y => (snd y <=? snd x)%float = true) present /\
    Forall (fun x => is_nan (snd x) = false) present /\
    Forall (fun x => is_nan (snd x) = true) missing.
Proof.
  intros view. split; [|split].
  - intros k v. unfold view, df_grouped_route_cov_of.
    rewrite <- groupby_mean_In. split; apply Permutation_in;
      [|symmetry]; apply sort_values_desc_perm.
  - unfold view, df_grouped_route_cov_of. eapply Permutation_NoDup.
    + symmetry. apply Permutation_map, sort_values_desc_perm.
    + rewrite groupby_mean_keys. apply group_keys_NoDup.
  - apply sort_values_desc_sorted.
Qed.


End ViewFacts.

(** The compensated mean on the cells 0.1, 0.2, 0.3, in either order, and
    the sum taken left to right for comparison. *)
Example compensated_mean_values :
  mean [0.1; 0.2; 0.3]%float = 0.19999999999999998%float /\
  mean [0.2; 0.1; 0.3]%float = 0.19999999999999998%float /\
  ((0.1 + 0.2 + 0.3) / 3)%float = 0.20000000000000004%float /\
  mean [0.6; 0.8]%float = 0.7%float.
Proof. repeat split; reflexivity. Qed.

(** C9: the accuracy-by-route view has one row per [routeID] of the
    filtered accuracy rows; the row of a route holds the mean of
    [accurate_pct] that the one pass over the table gives the rows of that
    route, which is the compensated arithmetic mean of their present cells
    in row order; the rows are in descending order of that mean, rows whose
    mean is missing coming last.  Routes with means A: 0.7, B: 0.9 and
    C: 0.5 come out in the order B, A, C; route B with the cell 0.2 comes
    before route A with the cells 0.1, 0.2, 0.3. *)
Theorem accuracy_by_route_sorted_by_mean :
  (forall (R P B : Type) (KR : KeyType R)
          (df_acc_filtered : list (AccuracyRecord R P B)),
      let view := df_grouped_route_of df_acc_filtered in
      (forall k v, In (k, v) view <->
                   In k (map routeID df_acc_filtered) /\
                   v = mean (map accurate_pct
                               (group routeID k df_acc_filtered))) /\
      NoDup (map fst view) /\
      exists present missing,
        view = present ++ missing /\
        StronglySorted (fun a b => (snd b <=? snd a)%float = true) present /\
        Forall (fun a => is_nan (snd a) = false) present /\
        Forall (fun a => is_nan (snd a) = true) missing) /\
  groupby_mean routeID accurate_pct routes_A_B_C =
    [("A", 0.7); ("B", 0.9); ("C", 0.5)]%float /\
  df_grouped_route_of routes_A_B_C = [("B", 0.9); ("A", 0.7); ("C", 0.5)]%float /\
  df_grouped_route_of routes_near_tie =
    [("B", 0.2); ("A", 0.19999999999999998)]%float.
Proof.
  split; [|repeat split; reflexivity].
  intros R P B KR df. apply accuracy_by_route_view.
Qed.

